(** * genpass: the password construction of [genpass.py]

    A shallow embedding of [calculate_entropy] and [generate_password]
    (genpass.py, lines 83-128) together with the parts of Python's
    [secrets], [random] and [math] modules they call, and of the code
    around them: [format_output], [run_selftest], the prompts [input_int],
    [input_bool] and [interactive_mode], and the configuration and
    generation phases of [main].  The clipboard functions and the printing
    at the end of [main] are not modelled.

    - A Python [str] is a list of Unicode code points ([list N]); a list of
      one-character strings ([password_chars]) is modelled the same way, so
      [''.join] is the identity.
    - The operating system's random source is a tape of raw draws with a
      counter of the draws consumed so far.  [_randbelow n] reads the next
      raw draw and reduces it into [0, n); every sequence of in-range
      answers is the behaviour of some tape.
    - Exceptions are explicit: a computation returns a value or raises, and
      in both cases hands back the random source it has advanced.
    - Floating point is kept abstract behind the class [FloatOps]: the code
      is embedded for any implementation of [float(int)], [math.log2] and
      float multiplication.  The instance [real_ops] reads them as exact
      real-number operations and is used for numeric estimates only. *)

From Stdlib Require Import ZArith NArith List String Ascii Reals Lra Lia.
From stdpp Require Import base tactics option list gmap.

Local Open Scope Z_scope.

(** ** Strings *)

Abbreviation char := N (only parsing).
Abbreviation str := (list N) (only parsing).

(** The code points of an ASCII literal. *)
Definition of_string (s : string) : str :=
  map N_of_ascii (list_ascii_of_string s).

(** Python's [len]. *)
Definition len {A : Type} (l : list A) : Z := Z.of_nat (length l).

(** ** Configuration (genpass.py, lines 23-31) *)

Definition MIN_LENGTH : Z := 8.
Definition MAX_LENGTH : Z := 128.
Definition DEFAULT_LENGTH : Z := 20.

(** [string.ascii_lowercase], [string.ascii_uppercase], [string.digits]. *)
Definition CHARS_LOWER : str := of_string "abcdefghijklmnopqrstuvwxyz".
Definition CHARS_UPPER : str := of_string "ABCDEFGHIJKLMNOPQRSTUVWXYZ".
Definition CHARS_DIGITS : str := of_string "0123456789".

(** [string.punctuation]: the 32 ASCII punctuation characters in code-point
    order.  The second character is the double quote, code point 34. *)
Definition CHARS_SYMBOLS : str :=
  of_string "!" ++ [34%N] ++ of_string "#$%&'()*+,-./:;<=>?@[\]^_`{|}~".

Definition CHARS_SYMBOLS_SAFE : str := of_string "!#%&()*+,-./:;=?@[]^{}~_".

(** ** Exceptions *)

(** The [ValueError]s that can be raised, one per raise site. *)
Inductive message : Set :=
| InvalidPool                 (* line 93: fewer than 2 distinct custom characters *)
| NoCategorySelected          (* line 112: the combined pool is empty *)
| LengthTooShort              (* line 114: length below MIN_LENGTH *)
| LengthBelowCategoryMinimum  (* line 116: length below the number of pools *)
| MathDomain.                 (* math.log2 of a non-positive number *)

Inductive exn : Set :=
| ValueError (m : message)
| IndexError
| RuntimeError (cause : exn). (* line 128: "Internal Error: {e}" *)

Inductive outcome (A : Type) : Type :=
| Returned (a : A)
| Raised (e : exn).
Arguments Returned {A} a.
Arguments Raised {A} e.


(** ** The secure random source *)

Record rng : Type := mkRng {
  draws : nat -> nat;  (* the raw draws the system will deliver, in order *)
  used : nat           (* how many of them have been consumed *)
}.

(** A computation that may consume randomness and may raise. *)
Definition M (A : Type) : Type := rng -> outcome A * rng.

Definition ret {A} (a : A) : M A := fun s => (Returned a, s).

Definition raise {A} (e : exn) : M A := fun s => (Raised e, s).

Definition bind {A B} (m : M A) (k : A -> M B) : M B :=
  fun s =>
    match m s with
    | (Returned a, s') => k a s'
    | (Raised e, s') => (Raised e, s')
    end.

Notation "'let*' x ':=' m 'in' k" := (bind m (fun x => k))
  (at level 10, x pattern, m at level 100, k at level 200).

(** A pure computation that may raise, run inside [M]. *)
Definition lift {A} (o : outcome A) : M A := fun s => (o, s).

(** [try: m  except Exception as e: raise RuntimeError(...)] (lines 119-128). *)
Definition try_except {A} (m : M A) : M A :=
  fun s =>
    match m s with
    | (Returned a, s') => (Returned a, s')
    | (Raised e, s') => (Raised (RuntimeError e), s')
    end.

(** The random source after [k] further draws. *)
Definition advance (k : nat) (s : rng) : rng := mkRng (draws s) (k + used s).

(** [random.SystemRandom._randbelow n], for [0 < n]. *)
Definition randbelow (n : nat) : M nat :=
  fun s => (Returned (draws s (used s) mod n)%nat, advance 1 s).

(** [secrets.choice seq]: [IndexError] on an empty sequence, otherwise
    [seq[_randbelow(len(seq))]]. *)
Definition choice (seq : str) : M char :=
  match seq with
  | [] => raise IndexError
  | _ =>
      let* i := randbelow (length seq) in
      match seq !! i with
      | Some c => ret c
      | None => raise IndexError
      end
  end.

(** [x[i], x[j] = x[j], x[i]]: both reads happen before the two writes. *)
Definition swap (x : str) (i j : nat) : M str :=
  match x !! j, x !! i with
  | Some xj, Some xi => ret (<[j:=xi]> (<[i:=xj]> x))
  | _, _ => raise IndexError
  end.

(** The loop of [random.shuffle]:
    [for i in reversed(range(1, len(x))): j = randbelow(i + 1); swap],
    with [i] running from its argument down to 1. *)
Fixpoint shuffle_from (i : nat) (x : str) : M str :=
  match i with
  | O => ret x
  | S i' =>
      let* j := randbelow (S i) in
      let* x := swap x i j in
      shuffle_from i' x
  end.

(** [secrets.SystemRandom().shuffle(x)]. *)
Definition shuffle (x : str) : M str := shuffle_from (length x - 1) x.

(** ** Entropy (genpass.py, lines 83-85) *)

(** Python numbers: [calculate_entropy] returns the integer [0] or a float. *)
Inductive number (F : Type) : Type :=
| PyInt (z : Z)
| PyFloat (f : F).
Arguments PyInt {F} z.
Arguments PyFloat {F} f.

(** The floating-point operations [calculate_entropy] uses.  The conversion
    of an integer to a float is defined for integers of magnitude below
    [2 ^ 1024]; on larger ones Python raises [OverflowError], which is not
    modelled: statements about the entropy of such a [length] are not made
    (see [calculate_entropy_defined]). *)
Class FloatOps (F : Type) : Type := {
  float_of_int : Z -> F;      (* the conversion in [int * float] *)
  log2_of_int : Z -> F;       (* [math.log2] on a positive integer *)
  float_mul : F -> F -> F     (* float multiplication *)
}.

(** [math.log2 x] for an integer [x]: a [ValueError] unless [x] is positive. *)
Definition math_log2 `{FloatOps F} (x : Z) : outcome F :=
  if x <=? 0 then Raised (ValueError MathDomain) else Returned (log2_of_int x).

Definition calculate_entropy `{FloatOps F} (pool_size length : Z) : outcome (number F) :=
  if (pool_size =? 0) || (length =? 0) then Returned (PyInt 0)
  else
    match math_log2 pool_size with
    | Returned l => Returned (PyFloat (float_mul (float_of_int length) l))
    | Raised e => Raised e
    end.

(** Exact real arithmetic in place of floats. *)
#[export] Instance real_ops : FloatOps R := {
  float_of_int := IZR;
  log2_of_int := fun x => (ln (IZR x) / ln 2)%R;
  float_mul := Rmult
}.

(** ** Password generation (genpass.py, lines 87-128) *)

(** Truth value of [custom_chars]: [None] and the empty string are false. *)
Definition truthy (custom_chars : option str) : bool :=
  match custom_chars with
  | Some (_ :: _) => true
  | _ => false
  end.

(** [len(set(custom_chars))]. *)
Definition distinct (s : str) : Z := Z.of_nat (size (list_to_set s : gset N)).

(** Lines 88-109: the list [pools] and the string [full_pool].  These lines
    do not touch the random source. *)
Definition build_pools (use_upper use_lower use_digits use_symbols use_safe : bool)
    (custom_chars : option str) : outcome (list str * str) :=
  let pools : list str := [] in
  let full_pool : str := [] in
  if truthy custom_chars then
    let custom := default [] custom_chars in
    if distinct custom <? 2 then Raised (ValueError InvalidPool)
    else Returned (pools ++ [custom], custom)
  else
    let '(pools, full_pool) :=
      if use_lower then (pools ++ [CHARS_LOWER], full_pool ++ CHARS_LOWER)
      else (pools, full_pool) in
    let '(pools, full_pool) :=
      if use_upper then (pools ++ [CHARS_UPPER], full_pool ++ CHARS_UPPER)
      else (pools, full_pool) in
    let '(pools, full_pool) :=
      if use_digits then (pools ++ [CHARS_DIGITS], full_pool ++ CHARS_DIGITS)
      else (pools, full_pool) in
    let '(pools, full_pool) :=
      if use_symbols then
        let syms := if use_safe then CHARS_SYMBOLS_SAFE else CHARS_SYMBOLS in
        (pools ++ [syms], full_pool ++ syms)
      else (pools, full_pool) in
    Returned (pools, full_pool).

(** Lines 120-121: one character from each pool. *)
Fixpoint draw_mandatory (pools : list str) (password_chars : str) : M str :=
  match pools with
  | [] => ret password_chars
  | pool :: rest =>
      let* c := choice pool in
      draw_mandatory rest (password_chars ++ [c])
  end.

(** Lines 122-123: [n] further characters from [full_pool]. *)
Fixpoint draw_fill (n : nat) (full_pool : str) (password_chars : str) : M str :=
  match n with
  | O => ret password_chars
  | S n' =>
      let* c := choice full_pool in
      draw_fill n' full_pool (password_chars ++ [c])
  end.

Definition generate_password `{FloatOps F} (length : Z)
    (use_upper use_lower use_digits use_symbols use_safe : bool)
    (custom_chars : option str) : M (str * number F) :=
  let* (pools, full_pool) :=
    lift (build_pools use_upper use_lower use_digits use_symbols use_safe custom_chars) in
  if bool_decide (full_pool = []) then raise (ValueError NoCategorySelected)
  else if length <? MIN_LENGTH then raise (ValueError LengthTooShort)
  else if length <? len pools then raise (ValueError LengthBelowCategoryMinimum)
  else
    try_except (
      let password_chars : str := [] in
      let* password_chars := draw_mandatory pools password_chars in
      let* password_chars :=
        draw_fill (Z.to_nat (length - len password_chars)) full_pool password_chars in
      let* password_chars := shuffle password_chars in
      let* bits := lift (calculate_entropy (len full_pool) length) in
      ret (password_chars, bits)).

(** Symbolic floats: every float expression the code can build, unevaluated. *)
Inductive fexpr : Set :=
| FOfInt (z : Z)
| FLog2 (z : Z)
| FMul (a b : fexpr).

#[export] Instance symbolic_ops : FloatOps fexpr := {
  float_of_int := FOfInt;
  log2_of_int := FLog2;
  float_mul := FMul
}.

(** The named pools a request enables, in the order lowercase, uppercase,
    digits, symbols; this follows the specification's wording and is
    compared with [build_pools] below. *)
Definition enabled_pools (use_upper use_lower use_digits use_symbols use_safe : bool)
    : list str :=
  (if use_lower then [CHARS_LOWER] else [])
  ++ (if use_upper then [CHARS_UPPER] else [])
  ++ (if use_digits then [CHARS_DIGITS] else [])
  ++ (if use_symbols then [if use_safe then CHARS_SYMBOLS_SAFE else CHARS_SYMBOLS] else []).

(** *** The character categories as the specification names them *)

(** The [n] consecutive code points starting at [first]. *)
Definition code_range (first n : nat) : str := map N.of_nat (seq first n).

Definition is_letter_or_digit (c : char) : bool :=
  ((97 <=? c) && (c <=? 122) || (65 <=? c) && (c <=? 90) || (48 <=? c) && (c <=? 57))%N.

(** The 26 lowercase ASCII letters, the 26 uppercase ones, the 10 digits. *)
Definition spec_lowercase : str := code_range 97 26.
Definition spec_uppercase : str := code_range 65 26.
Definition spec_digits : str := code_range 48 10.

(** The ASCII punctuation set: the printable code points 33 to 126 that are
    neither letters nor digits. *)
Definition spec_punctuation : str :=
  filter (λ c, is_letter_or_digit c = false) (code_range 33 94).

Definition spec_safe_symbols : str := of_string "!#%&()*+,-./:;=?@[]^{}~_".

(** The Universe of a request without a custom pool: the enabled categories
    in the order lowercase, uppercase, digits, symbols. *)
Definition spec_universe (use_upper use_lower use_digits use_symbols use_safe : bool) : str :=
  (if use_lower then spec_lowercase else [])
  ++ (if use_upper then spec_uppercase else [])
  ++ (if use_digits then spec_digits else [])
  ++ (if use_symbols then (if use_safe then spec_safe_symbols else spec_punctuation)
      else []).

(** The number [k] of mandatory categories: the enabled named categories, or
    1 with a custom pool. *)
Definition category_count (use_upper use_lower use_digits use_symbols : bool)
    (custom_chars : option str) : Z :=
  if truthy custom_chars then 1
  else Z.b2z use_lower + Z.b2z use_upper + Z.b2z use_digits + Z.b2z use_symbols.

(** The checks of lines 91-116 taken together: the pools can be built and
    none of the three tests on [full_pool] and [length] raises. *)
Definition passes_validation (length : Z)
    (use_upper use_lower use_digits use_symbols use_safe : bool)
    (custom_chars : option str) : bool :=
  match build_pools use_upper use_lower use_digits use_symbols use_safe custom_chars with
  | Raised _ => false
  | Returned (pools, full_pool) =>
      negb (bool_decide (full_pool = []))
      && negb (length <? MIN_LENGTH)
      && negb (length <? len pools)
  end.

(** The draws a successful generation of [length] characters consumes: one
    per character and one per step of the shuffle. *)
Definition draws_needed (length : Z) : nat :=
  (Z.to_nat length + (Z.to_nat length - 1))%nat.

(** A sample tape, for evaluating the code on concrete requests. *)
Definition sample_rng : rng := mkRng (fun k => (7 * k + 3)%nat) 0.

(** ** Output formatting (genpass.py, lines 130-134) *)

(** [range(0, stop, step)] for a positive [step]: the multiples of [step]
    below [stop], of which there are [(stop + step - 1) // step]. *)
Definition range_step (stop step : nat) : list nat :=
  map (λ k, k * step)%nat (seq 0 ((stop + step - 1) / step)).

(** [separator.join(parts)]. *)
Fixpoint join (separator : str) (parts : list str) : str :=
  match parts with
  | [] => []
  | p :: rest =>
      match rest with
      | [] => p
      | _ :: _ => p ++ separator ++ join separator rest
      end
  end.

(** [group_size and group_size > 0] guards the grouping; the slice
    [password[i:i+group_size]] is [take group_size (drop i password)]. *)
Definition format_output (password : str) (group_size : Z) (separator : str) : str :=
  if negb (group_size =? 0) && (0 <? group_size) then
    let g := Z.to_nat group_size in
    let parts :=
      map (λ i, take g (drop i password)) (range_step (length password) g) in
    join separator parts
  else password.

(** ** Exit codes (genpass.py, lines 33-36) *)

Definition EXIT_SUCCESS : Z := 0.
Definition EXIT_ARG_ERROR : Z := 1.
Definition EXIT_SYS_ERROR : Z := 2.
Definition EXIT_TEST_FAIL : Z := 3.

(** ** Self-test (genpass.py, lines 168-180) *)

(** The entries of [errors]: line 173 and line 174. *)
Inductive selftest_error : Set :=
| FailWrongLength
| FailException (e : exn).

(** [run_selftest] always ends in [sys.exit]; the model returns the exit
    code together with the collected [errors].  The messages it prints are
    left out. *)
Definition run_selftest (F : Type) `{FloatOps F} : rng -> (Z * list selftest_error) * rng :=
  fun s =>
    let errors : list selftest_error := [] in
    let '(errors, s') :=
      match generate_password (F:=F) 20 true true true true false None s with
      | (Returned (p, _), s') =>
          (if bool_decide (len p ≠ 20) then errors ++ [FailWrongLength] else errors, s')
      | (Raised e, s') => (errors ++ [FailException e], s')
      end in
    match errors with
    | _ :: _ => ((EXIT_TEST_FAIL, errors), s')
    | [] => ((EXIT_SUCCESS, errors), s')
    end.

(** ** Command line (genpass.py, lines 38-43 and 220-269) *)

Inductive preset_name : Set := web | strong | pin | wifi.

(** A value of the [PRESETS] dictionary. *)
Record preset : Set := mkPreset {
  p_len : Z;
  p_u : bool;
  p_l : bool;
  p_d : bool;
  p_s : bool;
  p_safe : bool
}.

Definition PRESETS (name : preset_name) : preset :=
  match name with
  | web => mkPreset 16 true true true true true
  | strong => mkPreset 32 true true true true false
  | pin => mkPreset 8 false false true false true
  | wifi => mkPreset 24 false true true false true
  end.

(** The namespace [parser.parse_args()] returns (lines 222-236); an option
    that was not given is [None] where its default is [None]. *)
Record args : Type := mkArgs {
  arg_len : option Z;
  arg_count : Z;
  arg_preset : option preset_name;
  arg_upper : bool;
  arg_lower : bool;
  arg_digits : bool;
  arg_symbols : bool;
  arg_safe : bool;
  arg_custom : option str;
  arg_group : Z;
  arg_sep : str;
  arg_quiet : bool;
  arg_copy : bool;
  arg_clear : Z;
  arg_selftest : bool
}.

(** The dictionary [cfg] (lines 256-261 and 214-218). *)
Record config : Type := mkConfig {
  cfg_len : Z;
  cfg_u : bool;
  cfg_l : bool;
  cfg_d : bool;
  cfg_s : bool;
  cfg_safe : bool;
  cfg_custom : option str;
  cfg_count : Z;
  cfg_quiet : bool;
  cfg_copy : bool;
  cfg_clear : Z;
  cfg_group : Z;
  cfg_sep : str
}.

(** [args.len if args.len else fallback]: [None] and [0] are both false. *)
Definition len_or (l : option Z) (fallback : Z) : Z :=
  match l with
  | Some n => if n =? 0 then fallback else n
  | None => fallback
  end.

(** Lines 244-261 of [main]: the configuration built from the parsed
    arguments when the program is run with arguments and without
    [--selftest]. *)
Definition resolve_config (a : args) : config :=
  let '(length, u, l, d, s, safe) :=
    match arg_preset a with
    | Some name =>
        let p := PRESETS name in
        let length := len_or (arg_len a) (p_len p) in
        let safe := if arg_safe a then arg_safe a else p_safe p in
        (length, p_u p, p_l p, p_d p, p_s p, safe)
    | None =>
        let length := len_or (arg_len a) DEFAULT_LENGTH in
        let '(u, l, d, s) := (arg_upper a, arg_lower a, arg_digits a, arg_symbols a) in
        let safe := arg_safe a in
        if negb (u || l || d || s || truthy (arg_custom a))
        then (length, true, true, true, true, safe)
        else (length, u, l, d, s, safe)
    end in
  mkConfig length u l d s safe (arg_custom a) (arg_count a)
    (arg_quiet a) (arg_copy a) (arg_clear a) (arg_group a) (arg_sep a).

(** Lines 265-269: [n] further iterations of the generation loop. *)
Fixpoint generate_loop `{FloatOps F} (n : nat) (cfg : config)
    (passwords : list (str * number F)) : M (list (str * number F)) :=
  match n with
  | O => ret passwords
  | S n' =>
      let* (raw, bits) :=
        generate_password (cfg_len cfg) (cfg_u cfg) (cfg_l cfg) (cfg_d cfg) (cfg_s cfg)
          (cfg_safe cfg) (cfg_custom cfg) in
      generate_loop n' cfg
        (passwords ++ [(format_output raw (cfg_group cfg) (cfg_sep cfg), bits)])
  end.

(** How the generation phase of [main] ends: with the list [passwords], or
    in [sys.exit] from the handler of line 300, or in an exception that no
    handler of [main] catches. *)
Inductive generation_result (F : Type) : Type :=
| Generated (passwords : list (str * number F))
| Exit (code : Z)
| Uncaught (e : exn).
Arguments Generated {F} passwords.
Arguments Exit {F} code.
Arguments Uncaught {F} e.

(** Lines 263-269 with the [except ValueError] of lines 300-302;
    [range(count)] is empty for a count that is not positive. *)
Definition main_generate `{FloatOps F} (cfg : config)
    : rng -> generation_result F * rng :=
  fun s =>
    match generate_loop (Z.to_nat (cfg_count cfg)) cfg [] s with
    | (Returned passwords, s') => (Generated passwords, s')
    | (Raised (ValueError _), s') => (Exit EXIT_ARG_ERROR, s')
    | (Raised e, s') => (Uncaught e, s')
    end.

(** ** Interactive input (genpass.py, lines 49-77 and 182-218) *)

(** The string operations the prompts rely on, kept abstract: [str.strip],
    [str.lower], and [int], which is [None] where Python raises
    [ValueError]. *)
Class TextOps : Type := {
  str_strip : str -> str;
  str_lower : str -> str;
  int_of_str : str -> option Z
}.

(** Standard input is the list of the lines still to be read; [input()]
    takes the first and raises [EOFError] when there is none.  The prompts
    and messages written to standard output are left out.  [OutOfFuel] is
    the result of a loop cut short by its bound. *)
Inductive io_result (A : Type) : Type :=
| Value (a : A)
| EOFError
| OutOfFuel.
Arguments Value {A} a.
Arguments EOFError {A}.
Arguments OutOfFuel {A}.

Definition IO (A : Type) : Type := list str -> io_result A * list str.

Definition io_ret {A} (a : A) : IO A := fun lines => (Value a, lines).

Definition io_bind {A B} (m : IO A) (k : A -> IO B) : IO B :=
  fun lines =>
    match m lines with
    | (Value a, rest) => k a rest
    | (EOFError, rest) => (EOFError, rest)
    | (OutOfFuel, rest) => (OutOfFuel, rest)
    end.

Notation "'ask' x ':=' m 'in' k" := (io_bind m (fun x => k))
  (at level 10, x pattern, m at level 100, k at level 200).

(** [input_int] (lines 49-61): one iteration of [while True] per line. *)
Fixpoint input_int `{TextOps} (min_val max_val default : Z) (lines : list str)
    : io_result Z * list str :=
  match lines with
  | [] => (EOFError, [])
  | line :: rest =>
      let raw := str_strip line in
      if bool_decide (raw = []) then (Value default, rest)
      else
        match int_of_str raw with
        | Some val =>
            if (min_val <=? val) && (val <=? max_val) then (Value val, rest)
            else input_int min_val max_val default rest
        | None => input_int min_val max_val default rest
        end
  end.

(** The answers [input_bool] accepts (lines 66-67); the Cyrillic ones are
    U+0434, U+0434 U+0430, and U+043D, U+043D U+0435 U+0442. *)
Definition valid_y : list str :=
  [of_string "y"; of_string "yes"; [1076%N]; [1076%N; 1072%N]; of_string "1"].
Definition valid_n : list str :=
  [of_string "n"; of_string "no"; [1085%N]; [1085%N; 1077%N; 1090%N]; of_string "0"].

(** [input_bool] (lines 63-77). *)
Fixpoint input_bool `{TextOps} (default : bool) (lines : list str)
    : io_result bool * list str :=
  match lines with
  | [] => (EOFError, [])
  | line :: rest =>
      let raw := str_lower (str_strip line) in
      if bool_decide (raw = []) then (Value default, rest)
      else if bool_decide (raw ∈ valid_y) then (Value true, rest)
      else if bool_decide (raw ∈ valid_n) then (Value false, rest)
      else input_bool default rest
  end.

(** The loop of lines 191-208, at most [fuel] times round. *)
Fixpoint ask_categories `{TextOps} (fuel : nat) (length : Z)
    : IO (bool * bool * bool * bool) :=
  match fuel with
  | O => fun lines => (OutOfFuel, lines)
  | S fuel' =>
      ask u := input_bool true in
      ask l := input_bool true in
      ask d := input_bool true in
      ask s := input_bool true in
      if negb (u || l || d || s) then ask_categories fuel' length
      else
        let categories_count := Z.b2z u + Z.b2z l + Z.b2z d + Z.b2z s in
        if length <? categories_count then ask_categories fuel' length
        else io_ret (u, l, d, s)
  end.

(** [interactive_mode] (lines 182-218).  Every round of the loop reads at
    least one line, so one round more than there are lines is enough. *)
Definition interactive_mode `{TextOps} : IO config :=
  ask length := input_int MIN_LENGTH MAX_LENGTH DEFAULT_LENGTH in
  ask (u, l, d, s) :=
    (fun lines => ask_categories (S (List.length lines)) length lines) in
  ask safe := (if s then input_bool false else io_ret false) in
  io_ret (mkConfig length u l d s safe None 1 false false 0 0 (of_string "-")).

(** A sample implementation of the string operations, written to agree
    with Python on ASCII text: [strip] removes the ASCII whitespace
    characters (code points 9-13 and 28-32) at both ends, [lower] lowers the
    letters A-Z, and [int] reads, between optional whitespace, an optional
    sign followed by decimal digits, in which single underscores may
    separate digits.  It is used to run the prompts on concrete input only;
    no statement below depends on it. *)
Definition is_space (c : char) : bool :=
  ((9 <=? c) && (c <=? 13) || (28 <=? c) && (c <=? 32))%N.

Fixpoint lstrip (s : str) : str :=
  match s with
  | c :: s' => if is_space c then lstrip s' else s
  | [] => []
  end.

Definition ascii_strip (s : str) : str := rev (lstrip (rev (lstrip s))).

Definition is_digit (c : char) : bool := ((48 <=? c) && (c <=? 57))%N.

(** The value of the digits [s] that follow a digit, [acc] being the value
    read so far; an underscore must stand between two digits. *)
Fixpoint digits_value (acc : Z) (s : str) : option Z :=
  match s with
  | [] => Some acc
  | c :: s' =>
      if is_digit c then digits_value (10 * acc + Z.of_N (c - 48)) s'
      else if (c =? 95)%N then
        match s' with
        | d :: s'' =>
            if is_digit d then digits_value (10 * acc + Z.of_N (d - 48)) s''
            else None
        | [] => None
        end
      else None
  end.

Definition decimal_value (s : str) : option Z :=
  match s with
  | c :: s' => if is_digit c then digits_value (Z.of_N (c - 48)) s' else None
  | [] => None
  end.

Definition ascii_int (s : str) : option Z :=
  match ascii_strip s with
  | c :: digits =>
      if (c =? 45)%N then Z.opp <$> decimal_value digits
      else if (c =? 43)%N then decimal_value digits
      else decimal_value (c :: digits)
  | [] => None
  end.

#[export] Instance ascii_text_ops : TextOps := {
  str_strip := ascii_strip;
  str_lower := map (fun c => if ((65 <=? c) && (c <=? 90))%N then (c + 32)%N else c);
  int_of_str := ascii_int
}.

(** The request a configuration stands for passes the checks of
    [generate_password]. *)
Definition config_passes (cfg : config) : bool :=
  passes_validation (cfg_len cfg) (cfg_u cfg) (cfg_l cfg) (cfg_d cfg) (cfg_s cfg)
    (cfg_safe cfg) (cfg_custom cfg).

(** *** Prescribed draws *)



(** ** The random source and the monad *)

Lemma advance_0 s : advance 0 s = s.
Proof. by destruct s. Qed.

Lemma advance_advance a b s : advance a (advance b s) = advance (a + b) s.
Proof. unfold advance; simpl. f_equal. lia. Qed.

Lemma used_advance k s : used (advance k s) = (k + used s)%nat.
Proof. done. Qed.

Lemma randbelow_lt n s :
  (0 < n)%nat →
  ∃ j, randbelow n s = (Returned j, advance 1 s) ∧ (j < n)%nat.
Proof.
  intros Hn. eexists; split; [reflexivity|].
  apply Nat.mod_upper_bound. lia.
Qed.

(** Every in-range answer is delivered by some tape. *)
Lemma randbelow_reaches n j k :
  (j < n)%nat →
  ∃ d, randbelow n (mkRng d k) = (Returned j, mkRng d (S k)).
Proof.
  intros Hj. exists (λ _, j). unfold randbelow, advance. simpl.
  by rewrite Nat.mod_small.
Qed.

Lemma choice_returns (seq : str) s :
  seq ≠ [] →
  ∃ c, choice seq s = (Returned c, advance 1 s) ∧ c ∈ seq.
Proof.
  intros Hne. destruct seq as [|a seq']; [done|].
  destruct (randbelow_lt (length (a :: seq')) s) as (j & Hj & Hlt); [simpl; lia|].
  destruct (lookup_lt_is_Some_2 (a :: seq') j Hlt) as [c Hc].
  exists c. split; [|by eapply list_elem_of_lookup_2].
  unfold choice, bind. rewrite Hj, Hc. done.
Qed.

Lemma swap_returns (x : str) i j s :
  (i < length x)%nat → (j < length x)%nat →
  ∃ x', swap x i j s = (Returned x', s) ∧ x' ≡ₚ x.
Proof.
  intros Hi Hj.
  destruct (lookup_lt_is_Some_2 x i Hi) as [xi Hxi].
  destruct (lookup_lt_is_Some_2 x j Hj) as [xj Hxj].
  exists (<[j:=xi]> (<[i:=xj]> x)). split.
  - unfold swap. by rewrite Hxi, Hxj.
  - by apply Permutation_insert_swap.
Qed.

Lemma shuffle_from_returns i : ∀ (x : str) s,
  (i < length x)%nat →
  ∃ x', shuffle_from i x s = (Returned x', advance i s) ∧ x' ≡ₚ x.
Proof.
  induction i as [|i IH]; intros x s Hi.
  - exists x. by rewrite advance_0.
  - destruct (randbelow_lt (S (S i)) s) as (j & Hj & Hlt); [lia|].
    destruct (swap_returns x (S i) j (advance 1 s)) as (x1 & Hsw & Hp1); [lia..|].
    destruct (IH x1 (advance 1 s)) as (x2 & Hsh & Hp2).
    { rewrite Hp1. lia. }
    exists x2. split; [|by rewrite Hp2].
    cbn [shuffle_from]. unfold bind at 1. rewrite Hj.
    unfold bind at 1. rewrite Hsw, Hsh, advance_advance.
    do 2 f_equal. lia.
Qed.

Lemma shuffle_returns (x : str) s :
  ∃ x', shuffle x s = (Returned x', advance (length x - 1) s) ∧ x' ≡ₚ x.
Proof.
  unfold shuffle. destruct x as [|a x].
  - exists []. by rewrite advance_0.
  - apply shuffle_from_returns. simpl. lia.
Qed.

Lemma draw_mandatory_returns (pools : list str) : ∀ (buf : str) s,
  Forall (λ pool, pool ≠ []) pools →
  ∃ cs, draw_mandatory pools buf s = (Returned (buf ++ cs), advance (length pools) s)
        ∧ Forall2 (λ c pool, c ∈ pool) cs pools.
Proof.
  induction pools as [|pool rest IH]; intros buf s Hne.
  - exists []. by rewrite app_nil_r, advance_0.
  - apply Forall_cons in Hne as [Hpool Hrest].
    destruct (choice_returns pool s Hpool) as (c & Hc & Hin).
    destruct (IH (buf ++ [c]) (advance 1 s) Hrest) as (cs & Hcs & Hall).
    exists (c :: cs). split; [|by constructor].
    cbn [draw_mandatory]. unfold bind. rewrite Hc, Hcs, advance_advance.
    rewrite <- app_assoc. do 2 f_equal. simpl. lia.
Qed.

Lemma draw_fill_returns n : ∀ (full_pool buf : str) s,
  full_pool ≠ [] →
  ∃ cs, draw_fill n full_pool buf s = (Returned (buf ++ cs), advance n s)
        ∧ length cs = n ∧ Forall (λ c, c ∈ full_pool) cs.
Proof.
  induction n as [|n IH]; intros full_pool buf s Hne.
  - exists []. by rewrite app_nil_r, advance_0.
  - destruct (choice_returns full_pool s Hne) as (c & Hc & Hin).
    destruct (IH full_pool (buf ++ [c]) (advance 1 s) Hne) as (cs & Hcs & Hlen & Hall).
    exists (c :: cs). split; [|split; [simpl; lia|by constructor]].
    cbn [draw_fill]. unfold bind. rewrite Hc, Hcs, advance_advance.
    rewrite <- app_assoc. do 2 f_equal. lia.
Qed.

(** ** Pools *)

Lemma build_pools_named uu ul ud us usafe custom :
  truthy custom = false →
  build_pools uu ul ud us usafe custom
  = Returned (enabled_pools uu ul ud us usafe, concat (enabled_pools uu ul ud us usafe)).
Proof.
  intros Hc. unfold build_pools. rewrite Hc.
  destruct ul, uu, ud, us, usafe; reflexivity.
Qed.

Lemma build_pools_custom uu ul ud us usafe (c : str) :
  c ≠ [] →
  build_pools uu ul ud us usafe (Some c)
  = if distinct c <? 2 then Raised (ValueError InvalidPool) else Returned ([c], c).
Proof. intros Hc. destruct c; [done|]. reflexivity. Qed.

Lemma enabled_pools_nonempty uu ul ud us usafe :
  Forall (λ pool : str, pool ≠ []) (enabled_pools uu ul ud us usafe).
Proof.
  unfold enabled_pools.
  destruct ul, uu, ud, us, usafe; repeat constructor; discriminate.
Qed.

Lemma enabled_pools_length uu ul ud us usafe :
  (length (enabled_pools uu ul ud us usafe) ≤ 4)%nat.
Proof. unfold enabled_pools. destruct ul, uu, ud, us; simpl; lia. Qed.

(** What [build_pools] hands to the rest of [generate_password]. *)
Lemma build_pools_returned uu ul ud us usafe custom (pools : list str) (full_pool : str) :
  build_pools uu ul ud us usafe custom = Returned (pools, full_pool) →
  full_pool = concat pools
  ∧ Forall (λ pool : str, pool ≠ []) pools
  ∧ (length pools ≤ 4)%nat.
Proof.
  destruct (truthy custom) eqn:Hc.
  - destruct custom as [[|a c]|]; try discriminate.
    rewrite build_pools_custom by done.
    destruct (distinct (a :: c) <? 2); intros [= <- <-].
    split; [by rewrite <- (app_nil_r (a :: c)) at 1|].
    split; [by repeat constructor|simpl; lia].
  - rewrite build_pools_named by done. intros [= <- <-].
    auto using enabled_pools_nonempty, enabled_pools_length.
Qed.

Lemma concat_nonempty (pools : list str) :
  Forall (λ pool : str, pool ≠ []) pools → concat pools = [] → pools = [].
Proof.
  intros Hne Hnil. destruct pools as [|pool rest]; [done|].
  apply Forall_cons in Hne as [Hpool _].
  simpl in Hnil. by apply app_eq_nil in Hnil as [-> _].
Qed.

(** ** Entropy *)


Lemma calculate_entropy_float `{FloatOps F} pool_size length :
  0 < pool_size → length ≠ 0 →
  calculate_entropy pool_size length
  = Returned (PyFloat (float_mul (float_of_int length) (log2_of_int pool_size))).
Proof.
  intros Hp Hl. unfold calculate_entropy, math_log2.
  destruct (Z.eqb_spec pool_size 0); [lia|].
  destruct (Z.eqb_spec length 0); [lia|].
  destruct (Z.leb_spec pool_size 0); [lia|]. done.
Qed.

(** ** The behaviour of [generate_password] *)

(** Every run: a raise from the pool construction or from one of the checks
    leaves the random source untouched; otherwise the run returns. *)
Lemma generate_password_spec `{FloatOps F} length uu ul ud us usafe custom s :
  match build_pools uu ul ud us usafe custom with
  | Raised e =>
      generate_password (F:=F) length uu ul ud us usafe custom s = (Raised e, s)
  | Returned (pools, full_pool) =>
      if bool_decide (full_pool = []) then
        generate_password (F:=F) length uu ul ud us usafe custom s
        = (Raised (ValueError NoCategorySelected), s)
      else if length <? MIN_LENGTH then
        generate_password (F:=F) length uu ul ud us usafe custom s
        = (Raised (ValueError LengthTooShort), s)
      else
        ∃ (password cs rest : str),
          generate_password length uu ul ud us usafe custom s
          = (Returned (password,
                       PyFloat (float_mul (float_of_int length)
                                          (log2_of_int (len full_pool)))),
             advance (draws_needed length) s)
          ∧ password ≡ₚ cs ++ rest
          ∧ Forall2 (λ c pool, c ∈ pool) cs pools
          ∧ Forall (λ c, c ∈ full_pool) rest
          ∧ len password = length
  end.
Proof.
  unfold generate_password, bind, lift.
  destruct (build_pools uu ul ud us usafe custom) as [[pools full_pool]|e] eqn:Hb; [|done].
  apply build_pools_returned in Hb as (Hfull & Hne & Hlen).
  case_bool_decide as Hnil; [done|].
  destruct (Z.ltb_spec length MIN_LENGTH) as [|Hmin]; [done|].
  unfold MIN_LENGTH in Hmin.
  destruct (Z.ltb_spec length (len pools)) as [Hk|_]; [unfold len in Hk; lia|].
  destruct (draw_mandatory_returns pools [] s Hne) as (cs & Hcs & Hin).
  pose proof (Forall2_length _ _ _ Hin) as Hlcs.
  destruct (draw_fill_returns (Z.to_nat (length - len ([] ++ cs))) full_pool
              ([] ++ cs) (advance (List.length pools) s) Hnil)
    as (rest & Hrest & Hlrest & Hall).
  destruct (shuffle_returns (([] ++ cs) ++ rest)
              (advance (Z.to_nat (length - len ([] ++ cs)))
                 (advance (List.length pools) s)))
    as (pw & Hpw & Hperm).
  assert (List.length (([] ++ cs) ++ rest) = Z.to_nat length) as Hlen_buf.
  { rewrite length_app, Hlrest. unfold len. simpl. lia. }
  exists pw, cs, rest.
  split; [|split; [done|split; [done|split; [done|]]]].
  - unfold try_except, bind, lift.
    rewrite Hcs, Hrest, Hpw.
    rewrite calculate_entropy_float; [| |lia].
    + unfold ret. rewrite !advance_advance. do 2 f_equal.
      unfold draws_needed. rewrite Hlen_buf. unfold len. simpl. lia.
    + unfold len. destruct full_pool; [done|]. simpl. lia.
  - unfold len. rewrite Hperm, Hlen_buf. lia.
Qed.

(** The failures of [build_pools] are those of line 93. *)
Lemma build_pools_raised uu ul ud us usafe custom e :
  build_pools uu ul ud us usafe custom = Raised e →
  e = ValueError InvalidPool
  ∧ truthy custom = true ∧ distinct (default [] custom) < 2.
Proof.
  destruct (truthy custom) eqn:Hc.
  - unfold build_pools. rewrite Hc.
    destruct (Z.ltb_spec (distinct (default [] custom)) 2); [|done].
    by intros [= <-].
  - by rewrite build_pools_named.
Qed.

(** A run that returns: what was validated, drawn and computed. *)
Lemma generate_password_returned `{FloatOps F} length uu ul ud us usafe custom
    s (password : str) (bits : number F) s' :
  generate_password length uu ul ud us usafe custom s = (Returned (password, bits), s') →
  ∃ (pools : list str) (cs rest : str),
    build_pools uu ul ud us usafe custom = Returned (pools, concat pools)
    ∧ pools ≠ []
    ∧ MIN_LENGTH ≤ length
    ∧ bits = PyFloat (float_mul (float_of_int length) (log2_of_int (len (concat pools))))
    ∧ s' = advance (draws_needed length) s
    ∧ password ≡ₚ cs ++ rest
    ∧ Forall2 (λ c pool, c ∈ pool) cs pools
    ∧ Forall (λ c, c ∈ concat pools) rest
    ∧ len password = length.
Proof.
  intros Hrun.
  pose proof (generate_password_spec (F:=F) length uu ul ud us usafe custom s) as Hspec.
  destruct (build_pools uu ul ud us usafe custom) as [[pools full_pool]|e] eqn:Hb;
    [|congruence].
  destruct (build_pools_returned _ _ _ _ _ _ _ _ Hb) as (-> & _ & _).
  case_bool_decide as Hnil; [congruence|].
  destruct (Z.ltb_spec length MIN_LENGTH); [congruence|].
  destruct Hspec as (pw & cs & rest & Hpw & Hperm & Hcs & Hrest & Hlen).
  rewrite Hrun in Hpw. injection Hpw as -> -> ->.
  exists pools, cs, rest. repeat split; try done.
  by intros ->.
Qed.

(** A run that raises: only a validation failure, and nothing was drawn. *)
Lemma generate_password_raised `{FloatOps F} length uu ul ud us usafe custom s e s' :
  generate_password (F:=F) length uu ul ud us usafe custom s = (Raised e, s') →
  s' = s
  ∧ (e = ValueError InvalidPool
     ∨ e = ValueError NoCategorySelected
     ∨ e = ValueError LengthTooShort).
Proof.
  intros Hrun.
  pose proof (generate_password_spec (F:=F) length uu ul ud us usafe custom s) as Hspec.
  destruct (build_pools uu ul ud us usafe custom) as [[pools full_pool]|e0] eqn:Hb.
  - case_bool_decide; [rewrite Hrun in Hspec; injection Hspec as -> ->; auto|].
    destruct (Z.ltb_spec length MIN_LENGTH);
      [rewrite Hrun in Hspec; injection Hspec as -> ->; auto|].
    destruct Hspec as (pw & cs & rest & Hpw & _). congruence.
  - apply build_pools_raised in Hb as (-> & _).
    rewrite Hrun in Hspec. injection Hspec as -> ->. auto.
Qed.

(** ** Real-number estimates of [log2] *)

Lemma ln_pow_lt (a b m n : Z) :
  (0 < a)%Z → (0 < b)%Z → (0 ≤ m)%Z → (0 ≤ n)%Z → (a ^ m < b ^ n)%Z →
  (IZR m * ln (IZR a) < IZR n * ln (IZR b))%R.
Proof.
  intros Ha Hb Hm Hn Hlt.
  rewrite <- (Z2Nat.id m), <- (Z2Nat.id n) in Hlt |- * by done.
  rewrite <- !INR_IZR_INZ.
  rewrite <- !ln_pow by (apply IZR_lt; done).
  apply ln_increasing.
  - rewrite pow_IZR. apply IZR_lt. apply Z.pow_pos_nonneg; lia.
  - rewrite !pow_IZR. by apply IZR_lt.
Qed.

Lemma ln_2_pos : (0 < ln 2)%R.
Proof. pose proof ln_lt_2. lra. Qed.

(** [20 * log2 26] lies between 94 and 94.01. *)
Lemma entropy_20_of_26 :
  (94 < 20 * (ln 26 / ln 2) < 9401 / 100)%R.
Proof.
  pose proof ln_2_pos as H2.
  assert (94 * ln 2 < 20 * ln 26)%R as Hlo.
  { apply ln_pow_lt; [lia..|]. vm_compute. reflexivity. }
  assert (2000 * ln 26 < 9401 * ln 2)%R as Hhi.
  { apply ln_pow_lt; [lia..|]. vm_compute. reflexivity. }
  assert (20 * (ln 26 / ln 2) * ln 2 = 20 * ln 26)%R as Heq by (field; lra).
  split.
  - apply (Rmult_lt_reg_r (ln 2)); [done|]. lra.
  - apply (Rmult_lt_reg_r (ln 2)); [done|]. lra.
Qed.

(** A request that passes the checks is served, whatever the random source. *)
Lemma generate_password_accepts `{FloatOps F} length uu ul ud us usafe custom
    (pools : list str) (full_pool : str) s :
  build_pools uu ul ud us usafe custom = Returned (pools, full_pool) →
  pools ≠ [] →
  MIN_LENGTH ≤ length →
  ∃ password : str,
    generate_password length uu ul ud us usafe custom s
    = (Returned (password,
                 PyFloat (float_mul (float_of_int length) (log2_of_int (len full_pool)))),
       advance (draws_needed length) s)
    ∧ len password = length.
Proof.
  intros Hb Hpools Hmin.
  pose proof (generate_password_spec (F:=F) length uu ul ud us usafe custom s) as Hspec.
  rewrite Hb in Hspec.
  apply build_pools_returned in Hb as (-> & Hne & _).
  case_bool_decide as Hnil; [by apply concat_nonempty in Hnil|].
  destruct (Z.ltb_spec length MIN_LENGTH); [lia|].
  destruct Hspec as (pw & cs & rest & Hpw & _ & _ & _ & Hlen). eauto.
Qed.

Lemma Forall2_pool_member (cs : str) (pools : list str) (pool : str) :
  Forall2 (λ c pool, c ∈ pool) cs pools →
  pool ∈ pools →
  ∃ c, c ∈ cs ∧ c ∈ pool.
Proof.
  induction 1 as [|c p cs pools Hc _ IH]; intros Hin.
  - by apply elem_of_nil in Hin.
  - apply elem_of_cons in Hin as [->|Hin].
    + exists c. split; [left|done].
    + destruct (IH Hin) as (c' & Hc' & Hp). exists c'. split; [by right|done].
Qed.

(** Each pool of a served request has one of its characters in the password. *)
Lemma generate_password_mandatory `{FloatOps F} length uu ul ud us usafe custom
    s (password : str) (bits : number F) s' (pools : list str) (full_pool pool : str) :
  generate_password length uu ul ud us usafe custom s = (Returned (password, bits), s') →
  build_pools uu ul ud us usafe custom = Returned (pools, full_pool) →
  pool ∈ pools →
  ∃ c, c ∈ password ∧ c ∈ pool.
Proof.
  intros Hrun Hb Hin.
  apply generate_password_returned in Hrun
    as (pools' & cs & rest & Hb' & _ & _ & _ & _ & Hperm & Hcs & _).
  rewrite Hb in Hb'. injection Hb' as <- _.
  destruct (Forall2_pool_member cs pools pool Hcs Hin) as (c & Hc & Hp).
  exists c. split; [|done].
  rewrite Hperm. apply elem_of_app. by left.
Qed.

(** The checks pass exactly when the pools are built, there is at least one
    of them, and [length] reaches the minimum; the test against the number
    of pools (at most 4) is then implied. *)
Lemma passes_validation_true length uu ul ud us usafe custom :
  passes_validation length uu ul ud us usafe custom = true
  ↔ ∃ (pools : list str) (full_pool : str),
      build_pools uu ul ud us usafe custom = Returned (pools, full_pool)
      ∧ pools ≠ []
      ∧ MIN_LENGTH ≤ length.
Proof.
  unfold passes_validation. split.
  - destruct (build_pools uu ul ud us usafe custom) as [[pools full_pool]|e] eqn:Hb;
      [|done].
    apply build_pools_returned in Hb as (-> & _ & _).
    rewrite !andb_true_iff, !negb_true_iff, bool_decide_eq_false, !Z.ltb_ge.
    intros [[Hnil Hmin] _]. exists pools, (concat pools).
    split; [done|]. split; [by intros ->|done].
  - intros (pools & full_pool & Hb & Hpools & Hmin). rewrite Hb.
    apply build_pools_returned in Hb as (-> & Hne & Hlen).
    rewrite !andb_true_iff, !negb_true_iff, bool_decide_eq_false, !Z.ltb_ge.
    split; [split; [|done]|].
    + intros Hnil. by apply concat_nonempty in Hnil.
    + unfold MIN_LENGTH in Hmin. unfold len. lia.
Qed.

(** ** Claims *)



(** C2: without a custom pool, the password of an accepted request holds at
    least one character of every enabled category (for symbols: of the safe
    subset or of the full set, as [use_safe] selects). *)
Theorem generate_password_covers_categories `{FloatOps F} length uu ul ud us usafe
    custom s (password : str) (bits : number F) s' :
  truthy custom = false →
  generate_password length uu ul ud us usafe custom s = (Returned (password, bits), s') →
  (ul = true → ∃ c, c ∈ password ∧ c ∈ CHARS_LOWER)
  ∧ (uu = true → ∃ c, c ∈ password ∧ c ∈ CHARS_UPPER)
  ∧ (ud = true → ∃ c, c ∈ password ∧ c ∈ CHARS_DIGITS)
  ∧ (us = true →
     ∃ c, c ∈ password ∧ c ∈ (if usafe then CHARS_SYMBOLS_SAFE else CHARS_SYMBOLS)).
Proof.
  intros Hc Hrun.
  pose proof (build_pools_named uu ul ud us usafe custom Hc) as Hb.
  pose proof (λ pool, generate_password_mandatory _ _ _ _ _ _ _ _ _ _ _ _ _ pool Hrun Hb)
    as Hpool.
  unfold enabled_pools in Hpool.
  repeat split; intros ->; apply Hpool; rewrite !elem_of_app, !list_elem_of_singleton; auto.
Qed.

Lemma generate_password_covers_categories_witness :
  (∃ c, c ∈ [70; 55; 77; 84; 100; 75; 48; 93]%N ∧ c ∈ CHARS_LOWER)
  ∧ (∃ c, c ∈ [70; 55; 77; 84; 100; 75; 48; 93]%N ∧ c ∈ CHARS_UPPER)
  ∧ (∃ c, c ∈ [70; 55; 77; 84; 100; 75; 48; 93]%N ∧ c ∈ CHARS_DIGITS)
  ∧ (∃ c, c ∈ [70; 55; 77; 84; 100; 75; 48; 93]%N ∧ c ∈ CHARS_SYMBOLS).
Proof.
  assert (generate_password (F:=fexpr) 8 true true true true false None sample_rng
          = (Returned ([70; 55; 77; 84; 100; 75; 48; 93]%N,
                       PyFloat (FMul (FOfInt 8) (FLog2 94))),
             advance 15 sample_rng)) as Hrun by (vm_compute; reflexivity).
  destruct (generate_password_covers_categories 8 true true true true false None
              _ _ _ _ eq_refl Hrun) as (Hl & Hu & Hd & Hs).
  exact (conj (Hl eq_refl) (conj (Hu eq_refl) (conj (Hd eq_refl) (Hs eq_refl)))).
Defined.

(** C3: the entropy returned for an accepted request is
    [length * log2 (len universe)], the universe being the concatenation of
    the pools with repeated characters counted as often as they occur; with
    exact real arithmetic, 20 characters over the 26 lowercase letters give
    between 94 and 94.01 bits. *)
Theorem generate_password_entropy :
  (∀ `{FloatOps F} length uu ul ud us usafe custom s (password : str)
     (bits : number F) s',
     generate_password length uu ul ud us usafe custom s
     = (Returned (password, bits), s') →
     ∃ pools : list str,
       build_pools uu ul ud us usafe custom = Returned (pools, concat pools)
       ∧ len (concat pools) = foldr (λ pool n, len pool + n) 0 pools
       ∧ bits = PyFloat (float_mul (float_of_int length)
                                   (log2_of_int (len (concat pools)))))
  ∧ (∀ usafe s,
       ∃ (password : str) (x : R) s',
         generate_password (F:=R) 20 false true false false usafe None s
         = (Returned (password, PyFloat x), s')
         ∧ (94 < x < 9401 / 100)%R).
Proof.
  split.
  - intros F ? length uu ul ud us usafe custom s password bits s' Hrun.
    apply generate_password_returned in Hrun
      as (pools & cs & rest & Hb & _ & _ & Hbits & _).
    exists pools. split; [done|]. split; [|done].
    clear. induction pools as [|pool pools IH]; [done|].
    simpl. rewrite <- IH. unfold len. rewrite length_app. lia.
  - intros usafe s.
    destruct (generate_password_accepts (F:=R) 20 false true false false usafe None
                [CHARS_LOWER] CHARS_LOWER s) as (password & Hrun & _); [done..|].
    eexists password, _, _. split; [exact Hrun|].
    exact entropy_20_of_26.
Qed.

Lemma generate_password_entropy_witness :
  ∃ pools : list str,
    build_pools true true true true false None = Returned (pools, concat pools)
    ∧ len (concat pools) = foldr (λ pool n, len pool + n) 0 pools
    ∧ PyFloat (FMul (FOfInt 8) (FLog2 94))
      = PyFloat (float_mul (float_of_int 8) (log2_of_int (len (concat pools)))).
Proof.
  assert (generate_password (F:=fexpr) 8 true true true true false None sample_rng
          = (Returned ([70; 55; 77; 84; 100; 75; 48; 93]%N,
                       PyFloat (FMul (FOfInt 8) (FLog2 94))),
             advance 15 sample_rng)) as Hrun by (vm_compute; reflexivity).
  exact (proj1 generate_password_entropy fexpr _ 8 true true true true false None
           _ _ _ _ Hrun).
Defined.

(** C4, as the code has it: a request whose [length] is below the number
    [k] of mandatory categories is rejected before any draw, by the first
    check that applies: [InvalidPool] for a custom pool with fewer than two
    distinct characters, [NoCategorySelected] when [k = 0], and otherwise
    [LengthTooShort], because [k] is at most 4 and the minimum length 8 is
    checked first. *)
Theorem length_below_category_count_fails `{FloatOps F} length uu ul ud us usafe
    custom s :
  length < category_count uu ul ud us custom →
  generate_password (F:=F) length uu ul ud us usafe custom s
  = (Raised (ValueError
       (if truthy custom && (distinct (default [] custom) <? 2) then InvalidPool
        else if category_count uu ul ud us custom =? 0 then NoCategorySelected
        else LengthTooShort)),
     s).
Proof.
  intros Hk.
  pose proof (generate_password_spec (F:=F) length uu ul ud us usafe custom s) as Hspec.
  unfold category_count in *.
  destruct (truthy custom) eqn:Hc.
  - destruct custom as [[|a c]|]; try discriminate.
    rewrite build_pools_custom in Hspec by done. simpl.
    destruct (distinct (a :: c) <? 2); [done|].
    case_bool_decide; [done|].
    destruct (Z.ltb_spec length MIN_LENGTH) as [|Hmin]; [done|].
    unfold MIN_LENGTH in Hmin. lia.
  - rewrite build_pools_named in Hspec by done. simpl.
    destruct ul, uu, ud, us; simpl in Hk |- *;
      (case_bool_decide as Hnil;
       [first [done | by destruct usafe]|]);
      try done;
      (destruct (Z.ltb_spec length MIN_LENGTH) as [|Hmin];
       [done|unfold MIN_LENGTH in Hmin; lia]).
Qed.

Lemma length_below_category_count_fails_witness :
  3 < category_count true true true true None
  ∧ generate_password (F:=fexpr) 3 true true true true false None sample_rng
    = (Raised (ValueError LengthTooShort), sample_rng).
Proof.
  split; [reflexivity|].
  apply (length_below_category_count_fails (F:=fexpr) 3 true true true true false
           None sample_rng).
  reflexivity.
Defined.

(** C4 fails as stated: with all four categories and [length = 3] the
    request is rejected as [LengthTooShort], not as
    [LengthBelowCategoryMinimum]. *)
Lemma length_below_category_count_counterexample :
  3 < category_count true true true true None
  ∧ fst (generate_password (F:=fexpr) 3 true true true true false None sample_rng)
    ≠ Raised (ValueError LengthBelowCategoryMinimum).
Proof. split; [reflexivity|]. vm_compute. discriminate. Qed.

(** C5, as the code has it: a non-empty custom pool with fewer than two
    distinct characters is rejected with [InvalidPool] before any draw; an
    empty custom pool is not a custom pool at all, the request is handled as
    if none had been given. *)
Theorem custom_pool_few_distinct_invalid `{FloatOps F} length uu ul ud us usafe
    (custom : str) s :
  distinct custom < 2 →
  generate_password (F:=F) length uu ul ud us usafe (Some custom) s
  = match custom with
    | [] => generate_password length uu ul ud us usafe None s
    | _ :: _ => (Raised (ValueError InvalidPool), s)
    end.
Proof.
  intros Hd. destruct custom as [|a c]; [done|].
  pose proof (generate_password_spec (F:=F) length uu ul ud us usafe (Some (a :: c)) s)
    as Hspec.
  rewrite build_pools_custom in Hspec by done.
  by destruct (Z.ltb_spec (distinct (a :: c)) 2); [|lia].
Qed.

Lemma custom_pool_few_distinct_invalid_witness :
  distinct (of_string "aaa") < 2
  ∧ generate_password (F:=fexpr) 12 true true true true false
      (Some (of_string "aaa")) sample_rng
    = (Raised (ValueError InvalidPool), sample_rng).
Proof.
  assert (distinct (of_string "aaa") < 2) as Hd by (vm_compute; reflexivity).
  split; [exact Hd|].
  exact (custom_pool_few_distinct_invalid (F:=fexpr) 12 true true true true false
           (of_string "aaa") sample_rng Hd).
Defined.

(** C5 fails as stated for the empty pool: it has no distinct character at
    all, yet with the lowercase category enabled the request is served. *)
Lemma empty_custom_pool_counterexample :
  distinct [] < 2
  ∧ fst (generate_password (F:=fexpr) 8 false true false false false (Some [])
           sample_rng)
    = Returned ([102; 114; 109; 116; 100; 107; 97; 121]%N,
                PyFloat (FMul (FOfInt 8) (FLog2 26)))
  ∧ fst (generate_password (F:=fexpr) 8 false true false false false (Some [])
           sample_rng)
    ≠ Raised (ValueError InvalidPool).
Proof.
  split; [vm_compute; reflexivity|].
  split; [vm_compute; reflexivity|]. vm_compute. discriminate.
Qed.


(** C7: [build_pools] yields, without a custom pool, the enabled categories
    in the order lowercase, uppercase, digits, symbols, with the safe symbol
    string or the full ASCII punctuation as [use_safe] selects, and their
    concatenation as the Universe; with a (non-empty) custom pool that
    passes the distinctness check, the Universe is that string itself. *)
Theorem build_pools_universe uu ul ud us usafe custom :
  build_pools uu ul ud us usafe custom
  = match custom with
    | Some (a :: c) =>
        if distinct (a :: c) <? 2 then Raised (ValueError InvalidPool)
        else Returned ([a :: c], a :: c)
    | _ =>
        Returned (enabled_pools uu ul ud us usafe, spec_universe uu ul ud us usafe)
    end.
Proof.
  assert (build_pools uu ul ud us usafe None
          = Returned (enabled_pools uu ul ud us usafe, spec_universe uu ul ud us usafe))
    as Hnamed.
  { rewrite build_pools_named by done. do 2 f_equal.
    destruct ul, uu, ud, us, usafe; vm_compute; reflexivity. }
  destruct custom as [[|a c]|]; [exact Hnamed| |exact Hnamed].
  by rewrite build_pools_custom.
Qed.

(** C8: with no category enabled and no custom pool the request is rejected
    with [NoCategorySelected], whatever its length. *)
Theorem no_category_selected `{FloatOps F} length usafe s :
  generate_password (F:=F) length false false false false usafe None s
  = (Raised (ValueError NoCategorySelected), s).
Proof. reflexivity. Qed.

(** C9: if one call with given parameters is served, so is any other call
    with the same parameters, whatever its random source delivers, and the
    two results agree in length and in the entropy value. *)
Theorem generate_password_same_length_entropy `{FloatOps F} length uu ul ud us usafe
    custom s1 s2 (password1 : str) (bits1 : number F) s1' :
  generate_password length uu ul ud us usafe custom s1
  = (Returned (password1, bits1), s1') →
  ∃ (password2 : str) s2',
    generate_password length uu ul ud us usafe custom s2
    = (Returned (password2, bits1), s2')
    ∧ len password2 = len password1.
Proof.
  intros Hrun.
  apply generate_password_returned in Hrun
    as (pools & cs & rest & Hb & Hpools & Hmin & -> & _ & _ & _ & _ & Hlen).
  destruct (generate_password_accepts (F:=F) length uu ul ud us usafe custom
              pools (concat pools) s2 Hb Hpools Hmin) as (password2 & Hrun2 & Hlen2).
  exists password2, (advance (draws_needed length) s2).
  split; [done|]. by rewrite Hlen, Hlen2.
Qed.

Lemma generate_password_same_length_entropy_witness :
  ∃ (password2 : str) s2',
    generate_password (F:=fexpr) 8 true true true true false None
      (mkRng (λ k, (k * k + 1)%nat) 4)
    = (Returned (password2, PyFloat (FMul (FOfInt 8) (FLog2 94))), s2')
    ∧ len password2 = len [70; 55; 77; 84; 100; 75; 48; 93]%N.
Proof.
  assert (generate_password (F:=fexpr) 8 true true true true false None sample_rng
          = (Returned ([70; 55; 77; 84; 100; 75; 48; 93]%N,
                       PyFloat (FMul (FOfInt 8) (FLog2 94))),
             advance 15 sample_rng)) as Hrun by (vm_compute; reflexivity).
  exact (generate_password_same_length_entropy 8 true true true true false None
           sample_rng (mkRng (λ k, (k * k + 1)%nat) 4) _ _ _ Hrun).
Defined.




(** ** Further properties of [generate_password] *)

Lemma Forall2_in_concat (cs : str) (pools : list str) :
  Forall2 (λ c pool, c ∈ pool) cs pools →
  Forall (λ c, c ∈ concat pools) cs.
Proof.
  induction 1 as [|c pool cs pools Hc _ IH]; [constructor|].
  simpl. constructor.
  - apply elem_of_app. by left.
  - eapply Forall_impl; [exact IH|]. intros c' Hc'. apply elem_of_app. by right.
Qed.

(** The characters of a returned password come from [full_pool]. *)
Lemma password_within_universe_aux `{FloatOps F} length uu ul ud us usafe custom s
    (password : str) (bits : number F) s' (pools : list str) (full_pool : str) :
  generate_password length uu ul ud us usafe custom s = (Returned (password, bits), s') →
  build_pools uu ul ud us usafe custom = Returned (pools, full_pool) →
  Forall (λ c, c ∈ full_pool) password.
Proof.
  intros Hrun Hb.
  apply generate_password_returned in Hrun
    as (pools' & cs & rest & Hb' & _ & _ & _ & _ & Hperm & Hcs & Hrest & _).
  rewrite Hb in Hb'. injection Hb' as <- ->.
  rewrite Hperm. apply Forall_app. split; [by apply Forall2_in_concat|done].
Qed.

(** X1: every character of a returned password is a character of the
    combined pool [full_pool]: of the custom pool when one is used, and
    otherwise of an enabled category. *)
Theorem password_within_universe `{FloatOps F} length uu ul ud us usafe custom s
    (password : str) (bits : number F) s' :
  generate_password length uu ul ud us usafe custom s = (Returned (password, bits), s') →
  Forall (λ c, c ∈ if truthy custom then default [] custom
                   else concat (enabled_pools uu ul ud us usafe)) password.
Proof.
  intros Hrun.
  destruct (truthy custom) eqn:Hc.
  - destruct custom as [[|a c]|]; try discriminate.
    pose proof Hrun as Hret.
    apply generate_password_returned in Hret as (pools & _ & _ & Hb & _).
    pose proof (build_pools_custom uu ul ud us usafe (a :: c)) as Hbc.
    rewrite Hbc in Hb by done.
    destruct (distinct (a :: c) <? 2); [done|].
    exact (password_within_universe_aux _ _ _ _ _ _ _ _ _ _ _ _ _ Hrun
             (Hbc ltac:(done))).
  - exact (password_within_universe_aux _ _ _ _ _ _ _ _ _ _ _ _ _ Hrun
             (build_pools_named uu ul ud us usafe custom Hc)).
Qed.

Lemma password_within_universe_witness :
  Forall (λ c, c ∈ CHARS_LOWER) [102; 114; 109; 116; 100; 107; 97; 121]%N.
Proof.
  assert (generate_password (F:=fexpr) 8 false true false false false None sample_rng
          = (Returned ([102; 114; 109; 116; 100; 107; 97; 121]%N,
                       PyFloat (FMul (FOfInt 8) (FLog2 26))),
             advance 15 sample_rng)) as Hrun by (vm_compute; reflexivity).
  exact (password_within_universe 8 false true false false false None _ _ _ _ Hrun).
Defined.




(** X4: without a custom pool the combined pool never holds a character
    twice, so each of its characters is equally likely in a draw, and its
    size is 26 per letter category, 10 for the digits and 24 (safe) or 32
    (full) for the symbols. *)
Theorem named_universe_no_repeats uu ul ud us usafe custom
    (pools : list str) (full_pool : str) :
  truthy custom = false →
  build_pools uu ul ud us usafe custom = Returned (pools, full_pool) →
  NoDup full_pool
  ∧ len full_pool
    = 26 * Z.b2z ul + 26 * Z.b2z uu + 10 * Z.b2z ud
      + (if usafe then 24 else 32) * Z.b2z us.
Proof.
  intros Hc Hb. rewrite build_pools_named in Hb by done.
  injection Hb as <- <-.
  split.
  - apply (bool_decide_unpack _).
    destruct ul, uu, ud, us, usafe; vm_compute; exact I.
  - destruct ul, uu, ud, us, usafe; reflexivity.
Qed.

Lemma named_universe_no_repeats_witness :
  NoDup (CHARS_LOWER ++ CHARS_DIGITS)
  ∧ len (CHARS_LOWER ++ CHARS_DIGITS) = 36.
Proof.
  exact (named_universe_no_repeats false true true false false None
           [CHARS_LOWER; CHARS_DIGITS] (CHARS_LOWER ++ CHARS_DIGITS)
           eq_refl eq_refl).
Defined.

Lemma safe_universe_symbols uu ul ud us :
  Forall (λ c, (c ∈ CHARS_SYMBOLS → c ∈ CHARS_SYMBOLS_SAFE)
               ∧ c ∉ [34; 36; 39; 60; 62; 92; 96; 124]%N)
    (concat (enabled_pools uu ul ud us true)).
Proof.
  apply (bool_decide_unpack _).
  destruct ul, uu, ud, us; vm_compute; exact I.
Qed.

(** X5: in safe mode, without a custom pool, the only punctuation a password
    can contain is that of [CHARS_SYMBOLS_SAFE]; in particular it holds no
    double quote, dollar sign, apostrophe, angle bracket, backslash,
    backquote or vertical bar. *)
Theorem safe_mode_excludes_unsafe_symbols `{FloatOps F} length uu ul ud us custom s
    (password : str) (bits : number F) s' :
  truthy custom = false →
  generate_password length uu ul ud us true custom s = (Returned (password, bits), s') →
  Forall (λ c, (c ∈ CHARS_SYMBOLS → c ∈ CHARS_SYMBOLS_SAFE)
               ∧ c ∉ [34; 36; 39; 60; 62; 92; 96; 124]%N) password.
Proof.
  intros Hc Hrun.
  pose proof (password_within_universe_aux _ _ _ _ _ _ _ _ _ _ _ _ _ Hrun
                (build_pools_named uu ul ud us true custom Hc)) as Hin.
  pose proof (safe_universe_symbols uu ul ud us) as Hsafe.
  rewrite Forall_forall in Hin, Hsafe |- *.
  intros c Hcp. apply Hsafe, Hin, Hcp.
Qed.

Lemma safe_mode_excludes_unsafe_symbols_witness :
  Forall (λ c, (c ∈ CHARS_SYMBOLS → c ∈ CHARS_SYMBOLS_SAFE)
               ∧ c ∉ [34; 36; 39; 60; 62; 92; 96; 124]%N)
    [70; 55; 77; 84; 100; 75; 48; 33]%N.
Proof.
  assert (generate_password (F:=fexpr) 8 true true true true true None sample_rng
          = (Returned ([70; 55; 77; 84; 100; 75; 48; 33]%N,
                       PyFloat (FMul (FOfInt 8) (FLog2 86))),
             advance 15 sample_rng)) as Hrun by (vm_compute; reflexivity).
  exact (safe_mode_excludes_unsafe_symbols 8 true true true true None _ _ _ _
           eq_refl Hrun).
Defined.

(** ** Output formatting *)

Lemma ceil_div_bounds (n g : nat) :
  (0 < g)%nat →
  (n ≤ (n + g - 1) / g * g)%nat
  ∧ ((0 < n)%nat → (((n + g - 1) / g - 1) * g < n)%nat ∧ (0 < (n + g - 1) / g)%nat).
Proof.
  intros Hg.
  pose proof (Nat.div_mod_eq (n + g - 1) g) as Hdm.
  pose proof (Nat.mod_upper_bound (n + g - 1) g) as Hmod.
  split; [nia|]. intros Hn. split; [|nia].
  destruct ((n + g - 1) / g)%nat as [|q]; simpl; nia.
Qed.

Lemma concat_chunks (g : nat) m : ∀ password : str,
  (length password ≤ m * g)%nat →
  concat (map (λ i, take g (drop i password)) (map (λ k, k * g)%nat (seq 0 m)))
  = password.
Proof.
  induction m as [|m IH]; intros password Hlen.
  - destruct password; [done|simpl in Hlen; lia].
  - cbn [seq map concat]. rewrite <- seq_shift, !map_map. simpl.
    transitivity (take g password ++ drop g password); [|apply take_drop].
    rewrite drop_0. f_equal.
    rewrite <- (IH (drop g password)) at 1
      by (rewrite length_drop; simpl in Hlen; lia).
    rewrite map_map. f_equal. apply map_ext. intros k.
    by rewrite drop_drop.
Qed.

Lemma length_join (separator : str) (parts : list str) :
  length (join separator parts)
  = (length (concat parts) + length separator * (length parts - 1))%nat.
Proof.
  induction parts as [|p rest IH]; [simpl; lia|].
  destruct rest as [|q rest].
  - simpl. rewrite app_nil_r. lia.
  - change (join separator (p :: q :: rest))
      with (p ++ separator ++ join separator (q :: rest)).
    rewrite !length_app, IH. simpl. rewrite !length_app. lia.
Qed.

Lemma filter_join (c : char) (parts : list str) :
  c ∉ concat parts →
  filter (λ x, x ≠ c) (join [c] parts) = concat parts.
Proof.
  induction parts as [|p rest IH]; [done|].
  simpl concat. rewrite not_elem_of_app. intros [Hp Hrest].
  assert (filter (λ x, x ≠ c) p = p) as Hfp.
  { clear -Hp. induction p as [|a p IHp]; [done|].
    apply not_elem_of_cons in Hp as [Ha Hp].
    rewrite filter_cons_True by done. by rewrite IHp. }
  destruct rest as [|q rest].
  - simpl. by rewrite app_nil_r.
  - change (join [c] (p :: q :: rest)) with (p ++ [c] ++ join [c] (q :: rest)).
    rewrite !filter_app, Hfp, IH by done.
    rewrite filter_cons_False by (intros Hne; by apply Hne). done.
Qed.

(** The grouping branch of [format_output], with its parts spelled out. *)
Lemma format_output_parts (password : str) (group_size : Z) (separator : str) :
  0 < group_size →
  format_output password group_size separator
  = join separator
      (map (λ i, take (Z.to_nat group_size) (drop i password))
         (range_step (length password) (Z.to_nat group_size))).
Proof.
  intros Hg. unfold format_output.
  destruct (Z.eqb_spec group_size 0); [lia|].
  by destruct (Z.ltb_spec 0 group_size); [|lia].
Qed.

(** X6: for a positive group size the output is the separator-joined list
    of the groups, the groups concatenated give back the password, there
    are [ceil(len(password) / group_size)] of them, each but the last has
    exactly [group_size] characters, and the last has between 1 and
    [group_size]. *)
Theorem format_output_groups (password : str) (group_size : Z) (separator : str) :
  0 < group_size →
  ∃ parts : list str,
    format_output password group_size separator = join separator parts
    ∧ concat parts = password
    ∧ length parts
      = ((length password + Z.to_nat group_size - 1) / Z.to_nat group_size)%nat
    ∧ ∀ k (part : str),
        parts !! k = Some part →
        0 < len part ≤ group_size
        ∧ ((S k < length parts)%nat → len part = group_size).
Proof.
  intros Hg. rewrite format_output_parts by done.
  set (g := Z.to_nat group_size). assert (0 < g)%nat as Hg' by lia.
  set (n := length password).
  destruct (ceil_div_bounds n g Hg') as [Hup Hlow].
  eexists. split; [reflexivity|]. split; [|split].
  - unfold range_step. by apply concat_chunks.
  - unfold range_step. by rewrite !length_map, length_seq.
  - intros k part Hk. unfold range_step in Hk |- *.
    rewrite !length_map, length_seq.
    rewrite !list_lookup_fmap in Hk.
    destruct (seq 0 ((n + g - 1) / g) !! k) as [k'|] eqn:Hseq; [|done].
    apply lookup_seq in Hseq as [-> Hkm]. simpl in Hk. injection Hk as <-.
    unfold len. rewrite length_take, length_drop. fold n.
    assert (0 < n)%nat as Hn by (destruct n; [simpl in Hkm; rewrite Nat.div_small in Hkm by lia; lia|lia]).
    destruct (Hlow Hn) as [Hlast Hpos].
    split; [nia|]. intros Hnext. nia.
Qed.

Lemma format_output_groups_witness :
  ∃ parts : list str,
    format_output (of_string "abcdefgh") 3 (of_string "-") = join (of_string "-") parts
    ∧ concat parts = of_string "abcdefgh"
    ∧ length parts = ((8 + 3 - 1) / 3)%nat
    ∧ ∀ k (part : str),
        parts !! k = Some part →
        0 < len part ≤ 3 ∧ ((S k < length parts)%nat → len part = 3).
Proof.
  assert (0 < 3) as Hg by lia.
  exact (format_output_groups (of_string "abcdefgh") 3 (of_string "-") Hg).
Defined.

Lemma range_step_chunks (password : str) (g : nat) :
  (0 < g)%nat →
  concat (map (λ i, take g (drop i password)) (range_step (length password) g))
  = password.
Proof.
  intros Hg. unfold range_step. apply concat_chunks.
  by apply ceil_div_bounds.
Qed.

(** X7: grouping a non-empty password adds one separator between
    consecutive groups and nothing else: the output is longer than the
    password by [len(separator)] times the number of groups minus one. *)
Theorem format_output_length (password : str) (group_size : Z) (separator : str) :
  0 < group_size →
  password ≠ [] →
  len (format_output password group_size separator)
  = len password
    + len separator * ((len password + group_size - 1) / group_size - 1).
Proof.
  intros Hg Hne. rewrite format_output_parts by done.
  unfold len. rewrite length_join, range_step_chunks by lia.
  unfold range_step. rewrite !length_map, length_seq.
  set (g := Z.to_nat group_size). set (n := length password).
  assert (0 < n)%nat as Hn by (subst n; destruct password; [done|simpl; lia]).
  assert (0 < g)%nat as Hg' by lia.
  destruct (ceil_div_bounds n g Hg') as [_ Hlow]. destruct (Hlow Hn) as [_ Hpos].
  rewrite Nat2Z.inj_add, Nat2Z.inj_mul, Nat2Z.inj_sub, Nat2Z.inj_div by lia.
  rewrite Nat2Z.inj_sub, Nat2Z.inj_add by lia.
  replace (Z.of_nat g) with group_size by lia. done.
Qed.

Lemma format_output_length_witness :
  len (format_output (of_string "abcdefgh") 3 (of_string "--"))
  = len (of_string "abcdefgh") + len (of_string "--") * ((8 + 3 - 1) / 3 - 1).
Proof.
  assert (0 < 3) as Hg by lia.
  assert (of_string "abcdefgh" ≠ []) as Hne by discriminate.
  exact (format_output_length (of_string "abcdefgh") 3 (of_string "--") Hg Hne).
Defined.

(** X8: the password is returned unchanged, without any separator, when
    the group size is zero or negative and when it is at least the length
    of the password. *)
Theorem format_output_unchanged (password : str) (group_size : Z) (separator : str) :
  group_size ≤ 0 ∨ len password ≤ group_size →
  format_output password group_size separator = password.
Proof.
  intros Hcase.
  destruct (Z.ltb_spec 0 group_size) as [Hg|Hg].
  - destruct Hcase as [|Hlen]; [lia|].
    rewrite format_output_parts by done.
    pose proof (range_step_chunks password (Z.to_nat group_size)) as Hchunks.
    unfold range_step in *. unfold len in Hlen.
    set (g := Z.to_nat group_size) in *. set (n := length password) in *.
    assert ((n + g - 1) / g ≤ 1)%nat as Hm.
    { apply Nat.lt_succ_r, Nat.Div0.div_lt_upper_bound; lia. }
    destruct ((n + g - 1) / g)%nat as [|[|m]]; [|  |lia].
    + apply Hchunks. lia.
    + simpl in *. rewrite app_nil_r in Hchunks. apply Hchunks. lia.
  - unfold format_output.
    destruct (Z.ltb_spec 0 group_size); [lia|]. by rewrite andb_false_r.
Qed.

Lemma format_output_unchanged_witness :
  format_output (of_string "abcdefgh") 8 (of_string "-") = of_string "abcdefgh"
  ∧ format_output (of_string "abcdefgh") (-2) (of_string "-") = of_string "abcdefgh".
Proof.
  split.
  - apply format_output_unchanged. right. vm_compute. discriminate.
  - apply format_output_unchanged. left. lia.
Defined.

(** X9: when the separator is a single character that does not occur in the
    password, deleting that character from the output gives back the
    password, for every group size. *)
Theorem format_output_strip_separator (password : str) (group_size : Z) (c : char) :
  c ∉ password →
  filter (λ x, x ≠ c) (format_output password group_size [c]) = password.
Proof.
  intros Hc.
  destruct (Z.ltb_spec 0 group_size) as [Hg|Hg].
  - rewrite format_output_parts by done.
    rewrite filter_join; rewrite range_step_chunks by lia; done.
  - unfold format_output.
    destruct (Z.ltb_spec 0 group_size); [lia|]. rewrite andb_false_r.
    pose proof (filter_join c [password]) as Hf. simpl in Hf.
    rewrite app_nil_r in Hf. by apply Hf.
Qed.

Lemma format_output_strip_separator_witness :
  filter (λ x, x ≠ 45%N) (format_output (of_string "abcdefgh") 3 [45%N])
  = of_string "abcdefgh".
Proof.
  apply format_output_strip_separator.
  apply (bool_decide_unpack _). vm_compute. exact I.
Defined.

(** ** Self-test and command line *)

(** X10: the self-test cannot fail: whatever the random source delivers,
    [run_selftest] collects no error and exits with [EXIT_SUCCESS], after
    the 39 draws of one 20-character password. *)
Theorem run_selftest_succeeds `{FloatOps F} s :
  run_selftest F s = ((EXIT_SUCCESS, []), advance 39 s).
Proof.
  unfold run_selftest.
  destruct (generate_password_accepts (F:=F) 20 true true true true false None
              (enabled_pools true true true true false)
              (concat (enabled_pools true true true true false)) s)
    as (password & Hrun & Hlen); [done..|].
  rewrite Hrun. case_bool_decide; [done|]. reflexivity.
Qed.

(** A request that fails the checks is rejected with one of the three
    [ValueError]s, before any draw. *)
Lemma generate_password_rejects `{FloatOps F} length uu ul ud us usafe custom s :
  passes_validation length uu ul ud us usafe custom = false →
  ∃ m, generate_password (F:=F) length uu ul ud us usafe custom s
       = (Raised (ValueError m), s)
       ∧ (m = InvalidPool ∨ m = NoCategorySelected ∨ m = LengthTooShort).
Proof.
  intros Hv.
  destruct (generate_password length uu ul ud us usafe custom s)
    as [[[password bits]|e] s'] eqn:Hrun.
  - apply generate_password_returned in Hrun
      as (pools & cs & rest & Hb & Hpools & Hmin & _).
    assert (passes_validation length uu ul ud us usafe custom = true) as Hv'
      by (apply passes_validation_true; eauto).
    congruence.
  - apply generate_password_raised in Hrun as (-> & [->|[->| ->]]); eauto.
Qed.

(** The loop over a configuration that passes the checks: every iteration
    is a successful run of [generate_password], formatted. *)
Lemma generate_loop_returns `{FloatOps F} (cfg : config) :
  config_passes cfg = true →
  ∀ n (acc : list (str * number F)) s,
    ∃ entries : list (str * number F),
      generate_loop n cfg acc s
      = (Returned (acc ++ entries), advance (n * draws_needed (cfg_len cfg)) s)
      ∧ length entries = n
      ∧ Forall (λ entry,
          ∃ (raw : str) s1,
            generate_password (cfg_len cfg) (cfg_u cfg) (cfg_l cfg) (cfg_d cfg)
              (cfg_s cfg) (cfg_safe cfg) (cfg_custom cfg) s1
            = (Returned (raw, entry.2), advance (draws_needed (cfg_len cfg)) s1)
            ∧ entry.1 = format_output raw (cfg_group cfg) (cfg_sep cfg)) entries.
Proof.
  intros Hv. apply passes_validation_true in Hv as (pools & full_pool & Hb & Hpools & Hmin).
  induction n as [|n IH]; intros acc s.
  - exists []. by rewrite app_nil_r, advance_0.
  - destruct (generate_password_accepts (F:=F) _ _ _ _ _ _ _ _ _ s Hb Hpools Hmin)
      as (raw & Hrun & _).
    destruct (IH (acc ++ [(format_output raw (cfg_group cfg) (cfg_sep cfg),
                           PyFloat (float_mul (float_of_int (cfg_len cfg))
                                      (log2_of_int (len full_pool))))])
                 (advance (draws_needed (cfg_len cfg)) s))
      as (entries & Hloop & Hlen & Hall).
    eexists (_ :: entries). split; [|split].
    + cbn [generate_loop]. unfold bind. rewrite Hrun, Hloop.
      rewrite <- app_assoc, advance_advance. do 2 f_equal. lia.
    + simpl. by rewrite Hlen.
    + constructor; [|done]. exists raw, s. by split.
Qed.

(** The three ways the generation phase of [main] can go. *)
Lemma main_generate_spec `{FloatOps F} (cfg : config) s :
  if cfg_count cfg <=? 0 then
    main_generate (F:=F) cfg s = (Generated [], s)
  else if config_passes cfg then
    ∃ entries : list (str * number F),
      main_generate cfg s
      = (Generated entries,
         advance (Z.to_nat (cfg_count cfg) * draws_needed (cfg_len cfg)) s)
      ∧ len entries = cfg_count cfg
      ∧ Forall (λ entry,
          ∃ (raw : str) s1,
            generate_password (cfg_len cfg) (cfg_u cfg) (cfg_l cfg) (cfg_d cfg)
              (cfg_s cfg) (cfg_safe cfg) (cfg_custom cfg) s1
            = (Returned (raw, entry.2), advance (draws_needed (cfg_len cfg)) s1)
            ∧ len raw = cfg_len cfg
            ∧ entry.1 = format_output raw (cfg_group cfg) (cfg_sep cfg)) entries
  else
    main_generate (F:=F) cfg s = (Exit EXIT_ARG_ERROR, s).
Proof.
  unfold main_generate.
  destruct (Z.leb_spec (cfg_count cfg) 0) as [Hc|Hc].
  - by replace (Z.to_nat (cfg_count cfg)) with 0%nat by lia.
  - destruct (config_passes cfg) eqn:Hv.
    + destruct (generate_loop_returns cfg Hv (Z.to_nat (cfg_count cfg)) [] s)
        as (entries & Hloop & Hlen & Hall).
      exists entries. rewrite Hloop. split; [done|]. split; [unfold len; lia|].
      eapply Forall_impl; [exact Hall|].
      intros entry (raw & s1 & Hrun & Hout). exists raw, s1.
      split; [done|]. split; [|done].
      apply generate_password_returned in Hrun as (pools & cs & rest & Hrest).
      apply Hrest.
    + destruct (generate_password_rejects (F:=F) _ _ _ _ _ _ _ s Hv) as (m & Hrun & _).
      destruct (Z.to_nat (cfg_count cfg)) as [|n] eqn:Hn; [lia|].
      cbn [generate_loop]. unfold bind. by rewrite Hrun.
Qed.


(** The checks of [generate_password] in terms of its arguments. *)
Lemma passes_validation_eq length uu ul ud us usafe custom :
  passes_validation length uu ul ud us usafe custom
  = negb (truthy custom && (distinct (default [] custom) <? 2))
    && negb (category_count uu ul ud us custom =? 0)
    && negb (length <? MIN_LENGTH).
Proof.
  unfold passes_validation, category_count.
  destruct (truthy custom) eqn:Hc.
  - destruct custom as [[|a c]|]; try discriminate.
    rewrite build_pools_custom by done. simpl.
    destruct (distinct (a :: c) <? 2); [done|]. simpl.
    unfold MIN_LENGTH, len. change (Z.of_nat (List.length [a :: c])) with 1.
    destruct (Z.ltb_spec length 8), (Z.ltb_spec length 1); simpl;
      first [done | lia].
  - rewrite build_pools_named by done. simpl.
    unfold MIN_LENGTH, len.
    destruct ul, uu, ud, us; simpl; try done.
    all: try case_bool_decide as Hnil.
    all: try (destruct usafe; vm_compute in Hnil; done).
    all: simpl.
    all: match goal with
         | |- context [?x <? Z.of_nat ?k] =>
             let v := eval vm_compute in (Z.of_nat k) in
             change (Z.of_nat k) with v;
             destruct (Z.ltb_spec x 8), (Z.ltb_spec x v); simpl;
             first [done | lia]
         end.
Qed.





(** The generation phase for a configuration without custom pool that
    passes the checks, with what each raw password contains. *)
Lemma main_generate_named `{FloatOps F} (cfg : config) s :
  truthy (cfg_custom cfg) = false →
  config_passes cfg = true →
  0 < cfg_count cfg →
  ∃ entries : list (str * number F),
    (main_generate cfg s).1 = Generated entries
    ∧ len entries = cfg_count cfg
    ∧ Forall (λ entry,
        ∃ raw : str,
          entry.1 = format_output raw (cfg_group cfg) (cfg_sep cfg)
          ∧ len raw = cfg_len cfg
          ∧ Forall (λ c, c ∈ concat (enabled_pools (cfg_u cfg) (cfg_l cfg) (cfg_d cfg)
                                       (cfg_s cfg) (cfg_safe cfg))) raw
          ∧ ∀ pool : str,
              pool ∈ enabled_pools (cfg_u cfg) (cfg_l cfg) (cfg_d cfg) (cfg_s cfg)
                       (cfg_safe cfg) →
              ∃ c, c ∈ raw ∧ c ∈ pool) entries.
Proof.
  intros Hcu Hv Hc.
  pose proof (main_generate_spec (F:=F) cfg s) as Hout.
  destruct (Z.leb_spec (cfg_count cfg) 0); [lia|]. rewrite Hv in Hout.
  destruct Hout as (entries & -> & Hlen & Hall).
  exists entries. split; [done|]. split; [done|].
  eapply Forall_impl; [exact Hall|].
  intros entry (raw & s1 & Hrun & Hraw & Hfmt). exists raw.
  pose proof (build_pools_named (cfg_u cfg) (cfg_l cfg) (cfg_d cfg) (cfg_s cfg)
                (cfg_safe cfg) (cfg_custom cfg) Hcu) as Hb.
  split; [done|]. split; [done|]. split.
  - exact (password_within_universe_aux _ _ _ _ _ _ _ _ _ _ _ _ _ Hrun Hb).
  - intros pool Hpool.
    exact (generate_password_mandatory _ _ _ _ _ _ _ _ _ _ _ _ _ pool Hrun Hb Hpool).
Qed.



(** X14: every preset is a valid request.  With [--preset], no
    [--selftest], no custom pool and no length of its own ([--len] absent
    or 0), [main] generates
    [count] passwords of the preset's length, whatever category flags were
    given besides; each consists of characters of the preset's categories
    only and holds one of each, the symbols being the safe ones when the
    preset says so or [--safe] is given. *)
Theorem preset_generates `{FloatOps F} (a : args) (name : preset_name) s :
  arg_preset a = Some name →
  truthy (arg_custom a) = false →
  arg_len a = None ∨ arg_len a = Some 0 →
  0 < arg_count a →
  ∃ entries : list (str * number F),
    (main_generate (resolve_config a) s).1 = Generated entries
    ∧ len entries = arg_count a
    ∧ Forall (λ entry,
        ∃ raw : str,
          entry.1 = format_output raw (arg_group a) (arg_sep a)
          ∧ len raw = p_len (PRESETS name)
          ∧ Forall (λ c,
              c ∈ concat (enabled_pools (p_u (PRESETS name)) (p_l (PRESETS name))
                            (p_d (PRESETS name)) (p_s (PRESETS name))
                            (arg_safe a || p_safe (PRESETS name)))) raw
          ∧ ∀ pool : str,
              pool ∈ enabled_pools (p_u (PRESETS name)) (p_l (PRESETS name))
                       (p_d (PRESETS name)) (p_s (PRESETS name))
                       (arg_safe a || p_safe (PRESETS name)) →
              ∃ c, c ∈ raw ∧ c ∈ pool)
        entries.
Proof.
  destruct a as [l c pr u lo d sy sa cu g se q co cl st]. simpl.
  intros -> Hcu Hl Hc.
  set (cfg := resolve_config (mkArgs l c (Some name) u lo d sy sa cu g se q co cl st)).
  assert (cfg = mkConfig (p_len (PRESETS name)) (p_u (PRESETS name))
                  (p_l (PRESETS name)) (p_d (PRESETS name)) (p_s (PRESETS name))
                  (sa || p_safe (PRESETS name)) cu c q co cl g se) as Hcfg.
  { unfold cfg, resolve_config. simpl.
    destruct Hl as [-> | ->]; by destruct sa. }
  destruct (main_generate_named (F:=F) cfg s) as (entries & Hgen & Hlen & Hall).
  - by rewrite Hcfg.
  - rewrite Hcfg. unfold config_passes. rewrite passes_validation_eq. simpl.
    rewrite Hcu. unfold category_count. rewrite Hcu. by destruct name.
  - by rewrite Hcfg.
  - rewrite Hcfg in Hlen, Hall. simpl in Hlen, Hall. eauto.
Qed.

Lemma preset_generates_witness :
  ∃ entries : list (str * number fexpr),
    (main_generate
       (resolve_config
          (mkArgs None 3 (Some pin) true false false true false None 0
             (of_string "-") false false 0 false)) sample_rng).1
    = Generated entries
    ∧ len entries = 3
    ∧ Forall (λ entry,
        ∃ raw : str,
          entry.1 = format_output raw 0 (of_string "-")
          ∧ len raw = 8
          ∧ Forall (λ c, c ∈ concat (enabled_pools false false true false true)) raw
          ∧ ∀ pool : str,
              pool ∈ enabled_pools false false true false true →
              ∃ c, c ∈ raw ∧ c ∈ pool)
        entries.
Proof.
  assert (0 < 3) as Hc by lia.
  exact (preset_generates (F:=fexpr)
           (mkArgs None 3 (Some pin) true false false true false None 0
              (of_string "-") false false 0 false) pin sample_rng
           eq_refl eq_refl (or_introl eq_refl) Hc).
Defined.

(** ** Which passwords can be generated *)

















(** ** Interactive input *)

(** X17: [input_int] returns at the first line that is blank after
    stripping, with the default (which is not range-checked), or that
    parses to an integer within [min_val, max_val], with that integer;
    every earlier line is non-blank and not such an integer.  If no line
    qualifies it reads all of the input and ends in [EOFError]. *)
Theorem input_int_first_valid `{TextOps} (min_val max_val default : Z)
    (lines : list str) :
  let rejected (line : str) :=
    str_strip line ≠ []
    ∧ ∀ val, int_of_str (str_strip line) = Some val → ¬ (min_val ≤ val ≤ max_val) in
  match input_int min_val max_val default lines with
  | (Value v, rest) =>
      ∃ (skipped : list str) (line : str),
        lines = skipped ++ line :: rest
        ∧ Forall rejected skipped
        ∧ ((str_strip line = [] ∧ v = default)
           ∨ (str_strip line ≠ [] ∧ int_of_str (str_strip line) = Some v
              ∧ min_val ≤ v ≤ max_val))
  | (EOFError, rest) => rest = [] ∧ Forall rejected lines
  | (OutOfFuel, _) => False
  end.
Proof.
  intros rejected. induction lines as [|line lines IH]; [by split|].
  cbn [input_int]. case_bool_decide as Hblank.
  { exists [], line. split; [done|]. split; [constructor|]. by left. }
  assert (rejected line →
          match input_int min_val max_val default lines with
          | (Value v, rest) =>
              ∃ (skipped : list str) (line' : str),
                line :: lines = skipped ++ line' :: rest
                ∧ Forall rejected skipped
                ∧ ((str_strip line' = [] ∧ v = default)
                   ∨ (str_strip line' ≠ [] ∧ int_of_str (str_strip line') = Some v
                      ∧ min_val ≤ v ≤ max_val))
          | (EOFError, rest) => rest = [] ∧ Forall rejected (line :: lines)
          | (OutOfFuel, _) => False
          end) as Hskip.
  { intros Hrej.
    destruct (input_int min_val max_val default lines) as [[v| |] rest]; [| |done].
    - destruct IH as (skipped & line' & -> & Hsk & Hacc).
      exists (line :: skipped), line'. split; [done|]. split; [by constructor|done].
    - destruct IH as [-> Hall]. split; [done|by constructor]. }
  destruct (int_of_str (str_strip line)) as [val|] eqn:Hparse.
  - destruct (Z.leb_spec min_val val), (Z.leb_spec val max_val); simpl.
    + exists [], line. split; [done|]. split; [constructor|]. right. done.
    + apply Hskip. split; [done|]. intros val' Hv. simplify_eq. lia.
    + apply Hskip. split; [done|]. intros val' Hv. simplify_eq. lia.
    + apply Hskip. split; [done|]. intros val' Hv. simplify_eq. lia.
  - apply Hskip. split; [done|]. intros val' Hv. simplify_eq.
Qed.

(** X18: [input_bool] decides on the first line whose stripped, lower-cased
    text is blank (the default), one of the five yes-words ([True]) or one
    of the five no-words ([False]); every earlier line is none of these.
    If no line decides it reads all of the input and ends in [EOFError]. *)
Theorem input_bool_first_valid `{TextOps} (default : bool) (lines : list str) :
  let raw (line : str) := str_lower (str_strip line) in
  let rejected (line : str) :=
    raw line ≠ [] ∧ (raw line ∉ valid_y) ∧ (raw line ∉ valid_n) in
  match input_bool default lines with
  | (Value b, rest) =>
      ∃ (skipped : list str) (line : str),
        lines = skipped ++ line :: rest
        ∧ Forall rejected skipped
        ∧ ((raw line = [] ∧ b = default)
           ∨ (raw line ∈ valid_y ∧ b = true)
           ∨ (raw line ∈ valid_n ∧ (raw line ∉ valid_y) ∧ b = false))
  | (EOFError, rest) => rest = [] ∧ Forall rejected lines
  | (OutOfFuel, _) => False
  end.
Proof.
  intros raw rejected. induction lines as [|line lines IH]; [by split|].
  cbn [input_bool]. fold (raw line).
  case_bool_decide as Hblank.
  { exists [], line. split; [done|]. split; [constructor|]. by left. }
  case_bool_decide as Hy.
  { exists [], line. split; [done|]. split; [constructor|]. right. by left. }
  case_bool_decide as Hn.
  { exists [], line. split; [done|]. split; [constructor|]. right. by right. }
  destruct (input_bool default lines) as [[b| |] rest]; [| |done].
  - destruct IH as (skipped & line' & -> & Hsk & Hacc).
    exists (line :: skipped), line'. split; [done|]. split; [by constructor|done].
  - destruct IH as [-> Hall]. split; [done|by constructor].
Qed.

(** What a call of [input_bool] leaves of the input. *)
Lemma input_bool_consumes `{TextOps} (default : bool) (lines : list str) :
  match input_bool default lines with
  | (Value _, rest) => (List.length rest < List.length lines)%nat
  | (EOFError, rest) => rest = []
  | (OutOfFuel, _) => False
  end.
Proof.
  induction lines as [|line lines IH]; [done|].
  cbn [input_bool]. repeat (case_bool_decide; [simpl; lia|]).
  destruct (input_bool default lines) as [[b| |] rest]; [simpl; lia|done|done].
Qed.

Lemma input_int_range `{TextOps} (min_val max_val default : Z) (lines : list str) :
  match input_int min_val max_val default lines with
  | (Value v, rest) => v = default ∨ min_val ≤ v ≤ max_val
  | (EOFError, rest) => rest = []
  | (OutOfFuel, _) => False
  end.
Proof.
  induction lines as [|line lines IH]; [done|].
  cbn [input_int]. case_bool_decide; [by left|].
  destruct (int_of_str (str_strip line)) as [val|]; [|done].
  destruct (Z.leb_spec min_val val), (Z.leb_spec val max_val); simpl; try done.
  right. lia.
Qed.

(** The category loop does not run out of rounds, and what it returns has a
    category and fits the length. *)
Lemma ask_categories_result `{TextOps} (length : Z) fuel : ∀ lines : list str,
  (List.length lines < fuel)%nat →
  match ask_categories fuel length lines with
  | (Value (u, l, d, s), rest) =>
      u || l || d || s = true
      ∧ Z.b2z u + Z.b2z l + Z.b2z d + Z.b2z s ≤ length
  | (EOFError, rest) => rest = []
  | (OutOfFuel, _) => False
  end.
Proof.
  induction fuel as [|fuel IH]; intros lines Hfuel; [lia|].
  cbn [ask_categories]. unfold io_bind.
  pose proof (input_bool_consumes true lines) as H1.
  destruct (input_bool true lines) as [[u| |] r1]; [|done|done].
  pose proof (input_bool_consumes true r1) as H2.
  destruct (input_bool true r1) as [[l| |] r2]; [|done|done].
  pose proof (input_bool_consumes true r2) as H3.
  destruct (input_bool true r2) as [[d| |] r3]; [|done|done].
  pose proof (input_bool_consumes true r3) as H4.
  destruct (input_bool true r3) as [[s| |] r4]; [|done|done].
  destruct (u || l || d || s) eqn:Hany; simpl.
  - destruct (Z.ltb_spec length (Z.b2z u + Z.b2z l + Z.b2z d + Z.b2z s)).
    + apply IH. lia.
    + unfold io_ret. by rewrite Hany.
  - apply IH. lia.
Qed.

(** X19: [interactive_mode] either runs out of input ([EOFError], all lines
    read) or returns a configuration that [generate_password] accepts: the
    length lies between [MIN_LENGTH] and [MAX_LENGTH], at least one category
    is enabled, safe symbols are only asked for with symbols, there is no
    custom pool, the count is 1 and no grouping.  On every random source
    [main] then generates exactly one unformatted password of that length.
    The loop never needs more rounds than there are lines. *)
Theorem interactive_mode_valid `{TextOps} (lines : list str) :
  match interactive_mode lines with
  | (Value cfg, rest) =>
      MIN_LENGTH ≤ cfg_len cfg ≤ MAX_LENGTH
      ∧ cfg_u cfg || cfg_l cfg || cfg_d cfg || cfg_s cfg = true
      ∧ (cfg_safe cfg = true → cfg_s cfg = true)
      ∧ cfg_custom cfg = None
      ∧ cfg_count cfg = 1
      ∧ cfg_group cfg = 0
      ∧ ∀ (F : Type) (ops : FloatOps F) s,
          ∃ (raw : str) (bits : number F),
            main_generate cfg s
            = (Generated [(raw, bits)], advance (draws_needed (cfg_len cfg)) s)
            ∧ len raw = cfg_len cfg
  | (EOFError, rest) => rest = []
  | (OutOfFuel, _) => False
  end.
Proof.
  unfold interactive_mode, io_bind.
  pose proof (input_int_range MIN_LENGTH MAX_LENGTH DEFAULT_LENGTH lines) as Hlen.
  destruct (input_int MIN_LENGTH MAX_LENGTH DEFAULT_LENGTH lines)
    as [[length| |] r1]; [|done|done].
  assert (MIN_LENGTH ≤ length ≤ MAX_LENGTH) as Hrange.
  { destruct Hlen as [->|]; [|done]. by vm_compute. }
  pose proof (ask_categories_result length (S (List.length r1)) r1) as Hcat.
  destruct (ask_categories (S (List.length r1)) length r1)
    as [[[[[u l] d] s]| |] r2]; [|by apply Hcat; lia|by apply Hcat; lia].
  destruct Hcat as [Hany Hcount]; [lia|].
  assert (∀ safe : bool,
            (safe = true → s = true) →
            let cfg := mkConfig length u l d s safe None 1 false false 0 0
                         (of_string "-") in
            MIN_LENGTH ≤ cfg_len cfg ≤ MAX_LENGTH
            ∧ cfg_u cfg || cfg_l cfg || cfg_d cfg || cfg_s cfg = true
            ∧ (cfg_safe cfg = true → cfg_s cfg = true)
            ∧ cfg_custom cfg = None
            ∧ cfg_count cfg = 1
            ∧ cfg_group cfg = 0
            ∧ ∀ (F : Type) (ops : FloatOps F) st,
                ∃ (raw : str) (bits : number F),
                  main_generate cfg st
                  = (Generated [(raw, bits)], advance (draws_needed (cfg_len cfg)) st)
                  ∧ len raw = cfg_len cfg) as Hcfg.
  { intros safe Hsafe cfg. repeat (split; [done|]).
    intros F ops st.
    pose proof (main_generate_spec (F:=F) cfg st) as Hout.
    assert (config_passes cfg = true) as Hv.
    { unfold config_passes. rewrite passes_validation_eq. simpl.
      unfold category_count. simpl.
      destruct (Z.ltb_spec length MIN_LENGTH); [lia|].
      by destruct u, l, d, s. }
    rewrite Hv in Hout. simpl in Hout.
    destruct Hout as (entries & Hrun & Hn & Hall).
    destruct entries as [|[out bits] [|e entries]];
      [done| |unfold len in Hn; simpl in Hn; lia].
    apply Forall_cons in Hall as [(raw & s1 & _ & Hraw & Hfmt) _].
    simpl in Hfmt. subst out.
    exists raw, bits. split; [|done].
    rewrite Hrun, Nat.add_0_r. reflexivity. }
  destruct s.
  - pose proof (input_bool_consumes false r2) as Hsafe.
    destruct (input_bool false r2) as [[safe| |] r3]; [|done|done].
    by apply Hcfg.
  - by apply Hcfg.
Qed.

Lemma input_int_blank `{TextOps} (min_val max_val default : Z) (line : str)
    (rest : list str) :
  str_strip line = [] →
  input_int min_val max_val default (line :: rest) = (Value default, rest).
Proof. intros Hb. cbn [input_int]. by rewrite Hb, bool_decide_eq_true_2. Qed.

Lemma input_bool_blank `{TextOps} (default : bool) (line : str) (rest : list str) :
  str_lower (str_strip line) = [] →
  input_bool default (line :: rest) = (Value default, rest).
Proof. intros Hb. cbn [input_bool]. by rewrite Hb, bool_decide_eq_true_2. Qed.

(** X20: answering every prompt with a line that is blank after stripping
    and lower-casing gives the default configuration: 20 characters, all
    four categories, the full symbol set; six lines are read, one for the
    length, four for the categories and one for the safe-symbol question. *)
Theorem interactive_mode_defaults `{TextOps} (l1 l2 l3 l4 l5 l6 : str)
    (rest : list str) :
  str_strip l1 = [] →
  Forall (λ line, str_lower (str_strip line) = []) [l2; l3; l4; l5; l6] →
  interactive_mode (l1 :: l2 :: l3 :: l4 :: l5 :: l6 :: rest)
  = (Value (mkConfig DEFAULT_LENGTH true true true true false None 1 false false 0 0
              (of_string "-")),
     rest).
Proof.
  intros H1 Hall.
  apply Forall_cons in Hall as [H2 Hall]. apply Forall_cons in Hall as [H3 Hall].
  apply Forall_cons in Hall as [H4 Hall]. apply Forall_cons in Hall as [H5 Hall].
  apply Forall_cons in Hall as [H6 _].
  unfold interactive_mode, io_bind.
  rewrite input_int_blank by done.
  cbn [ask_categories]. unfold io_bind.
  rewrite !input_bool_blank by done.
  change (negb (true || true || true || true)) with false.
  change (DEFAULT_LENGTH <? Z.b2z true + Z.b2z true + Z.b2z true + Z.b2z true)
    with false.
  cbv iota. unfold io_ret at 1. cbv iota beta.
  by rewrite input_bool_blank by done.
Qed.

Lemma interactive_mode_defaults_witness :
  interactive_mode
    (of_string " " :: [] :: of_string "  " :: [] :: [] :: [] :: [of_string "next"])
  = (Value (mkConfig DEFAULT_LENGTH true true true true false None 1 false false 0 0
              (of_string "-")),
     [of_string "next"]).
Proof.
  apply (interactive_mode_defaults (H:=ascii_text_ops)); [reflexivity|].
  repeat constructor.
Defined.
